(** * IntelX MCP server: identifier registry, response normalizer and job
      polling loops

    A shallow embedding of [src/lib/postprocess.ts], [src/lib/identity-client.ts],
    the [IntelXClient] class and the tool / resource handlers of the server
    entry point, together with the properties the specification states about
    them.

    Conventions of the embedding.
    - A JavaScript string is a [string]; every character stands for one
      UTF-16 code unit below 256, so that [String.length] is [.length] and
      [String.substring 0 n] is [.slice(0, n)].
    - A JavaScript number that is used as a counter, a budget or a status
      code is a [Z].  Counters stay far below 2^53, where the two agree.  A
      number inside a JSON tree is an integer as well; a non-integral number
      behaves in both walks like an integer that no reverse table holds.
    - A JSON-like value is a [json] tree.  An object is the list of its own
      enumerable properties in enumeration order ([Object.entries]); the
      assignment [copy[key] = v] is [obj_set]. *)

From stdpp Require Import gmap strings list fin_maps functions pretty sorting.
From Stdlib Require Import ZArith Lia Ascii.

Open Scope Z_scope.

(** ** JSON-like values *)

#[local] Unset Elimination Schemes.
Inductive json : Type :=
| JNull
| JBool (b : bool)
| JNum (n : Z)
| JStr (s : string)
| JArr (items : list json)
| JObj (entries : list (string * json)).
#[local] Set Elimination Schemes.

Abbreviation object := (list (string * json)).

(** Writing an own property: an existing property keeps its place and takes
    the new value, a new property is added last. *)
Fixpoint obj_put (o : object) (k : string) (v : json) : object :=
  match o with
  | [] => [(k, v)]
  | (k', v') :: rest =>
      if decide (k' = k) then (k, v) :: rest else (k', v') :: obj_put rest k v
  end.

(** [copy[key] = v] on an object created by the literal [{}].  The name
    ["__proto__"] is the accessor inherited from [Object.prototype]: the
    assignment goes to its setter and creates no own property. *)
Definition obj_set (o : object) (k : string) (v : json) : object :=
  if bool_decide (k = "__proto__") then o else obj_put o k v.

(** [o[key]] restricted to own properties. *)
Fixpoint obj_get (o : object) (k : string) : option json :=
  match o with
  | [] => None
  | (k', v') :: rest => if decide (k' = k) then Some v' else obj_get rest k
  end.

Definition keys (o : object) : list string := map fst o.

(** Property names of an object with ordinary data properties: no name
    occurs twice and none is ["__proto__"]. *)
Definition plain_keys (ks : list string) : Prop :=
  NoDup ks ∧ ("__proto__" : string) ∉ ks.

(** The trees the round trip is stated for: every object in them has
    ordinary data properties. *)
Fixpoint wf_json (v : json) : Prop :=
  match v with
  | JArr items => foldr (λ x acc, wf_json x ∧ acc) True items
  | JObj entries =>
      plain_keys (keys entries)
      ∧ foldr (λ kv acc, wf_json kv.2 ∧ acc) True entries
  | _ => True
  end.

(** Paths into a tree: property names and array indices. *)
Inductive step : Type :=
| Key (k : string)
| Idx (i : nat).

Fixpoint get_path (p : list step) (v : json) : option json :=
  match p with
  | [] => Some v
  | Key k :: p' =>
      match v with
      | JObj entries =>
          match obj_get entries k with Some x => get_path p' x | None => None end
      | _ => None
      end
  | Idx i :: p' =>
      match v with
      | JArr items =>
          match items !! i with Some x => get_path p' x | None => None end
      | _ => None
      end
  end.

(** ** The identifier registry ([postprocess.ts], sections 1 to 3) *)

Definition TRANSITION_FIELDS : list string :=
  ["system_id"; "storage_id"; "owner"; "indexfile"; "group"; "randomid";
   "target"]%string.

(** [TRANSITION_FIELDS.includes(key)] *)
Definition is_transition_field (key : string) : bool :=
  bool_decide (key ∈ TRANSITION_FIELDS).

(** The three module-level tables.  The source creates one forward map, one
    reverse map and one counter per transition field; the functions below
    read and write them at transition fields only. *)
Record Registry : Type := {
  uuidToIdMaps : string → gmap string Z;
  idToUuidMaps : string → gmap Z string;
  counters : string → Z
}.

(** State after the initialisation loop [for (const field of TRANSITION_FIELDS)]. *)
Definition initial_registry : Registry :=
  {| uuidToIdMaps := λ _, ∅; idToUuidMaps := λ _, ∅; counters := λ _, 1 |}.

(** The allocation step inside [normalizeIntelxId]'s [deepScan]:
    [if (!map.has(value)) { newId = counters[field]++; map.set(value, newId);
    idToUuidMaps.get(field).set(newId, value) }] followed by [map.get(value)]. *)
Definition assign (reg : Registry) (field value : string) : Registry * Z :=
  match uuidToIdMaps reg field !! value with
  | Some id => (reg, id)
  | None =>
      let newId := counters reg field in
      ({| uuidToIdMaps :=
            <[field := <[value := newId]> (uuidToIdMaps reg field)]> (uuidToIdMaps reg);
          idToUuidMaps :=
            <[field := <[newId := value]> (idToUuidMaps reg field)]> (idToUuidMaps reg);
          counters := <[field := newId + 1]> (counters reg) |},
       newId)
  end.

(** [obj.map(deepScan)] with the registry threaded left to right. *)
Fixpoint scan_items (deepScan : Registry → json → Registry * json)
    (reg : Registry) (l : list json) : Registry * list json :=
  match l with
  | [] => (reg, [])
  | x :: rest =>
      let '(reg1, x') := deepScan reg x in
      let '(reg2, rest') := scan_items deepScan reg1 rest in
      (reg2, x' :: rest')
  end.

(** The loop [for (const [key, value] of Object.entries(obj))] of the forward
    walk, filling [copy]. *)
Fixpoint scan_entries (deepScan : Registry → json → Registry * json)
    (reg : Registry) (copy : object) (l : object) : Registry * object :=
  match l with
  | [] => (reg, copy)
  | (key, value) :: rest =>
      match is_transition_field key, value with
      | true, JStr s =>
          let '(reg1, id) := assign reg key s in
          scan_entries deepScan reg1 (obj_set copy key (JNum id)) rest
      | _, _ =>
          let '(reg1, value') := deepScan reg value in
          scan_entries deepScan reg1 (obj_set copy key value') rest
      end
  end.

(** [normalizeIntelxId]: the forward walk ([deepScan]).  The registry is
    threaded through the walk in evaluation order (array elements left to
    right, properties in enumeration order). *)
Fixpoint normalizeIntelxId (reg : Registry) (obj : json) {struct obj}
  : Registry * json :=
  match obj with
  | JArr items =>
      let '(reg', items') := scan_items normalizeIntelxId reg items in
      (reg', JArr items')
  | JObj entries =>
      let '(reg', copy) := scan_entries normalizeIntelxId reg [] entries in
      (reg', JObj copy)
  | _ => (reg, obj)
  end.

(** [getOriginalUuid(field, id)]: [idToUuidMaps.get(field)?.get(id)].  The
    outer map has an entry exactly for the transition fields. *)
Definition getOriginalUuid (reg : Registry) (field : string) (id : Z)
  : option string :=
  if is_transition_field field then idToUuidMaps reg field !! id else None.

(** [getNormalizedId(field, uuid)]: [uuidToIdMaps.get(field)?.get(uuid)]. *)
Definition getNormalizedId (reg : Registry) (field : string) (uuid : string)
  : option Z :=
  if is_transition_field field then uuidToIdMaps reg field !! uuid else None.

(** The loop over [Object.entries(obj)] of the reverse walk. *)
Fixpoint unscan_entries (reg : Registry) (deepScan : json → json)
    (copy : object) (l : object) : object :=
  match l with
  | [] => copy
  | (key, value) :: rest =>
      match is_transition_field key, value with
      | true, JNum n =>
          let original := idToUuidMaps reg key !! n in
          unscan_entries reg deepScan
            (obj_set copy key
               (match original with Some s => JStr s | None => JNum n end))
            rest
      | _, _ =>
          unscan_entries reg deepScan (obj_set copy key (deepScan value)) rest
      end
  end.

(** [denormalizeIntelxId]: the reverse walk; it only reads the registry.
    [original ?? value] keeps the number when the reverse table has no entry. *)
Fixpoint denormalizeIntelxId (reg : Registry) (obj : json) {struct obj} : json :=
  match obj with
  | JArr items => JArr (map (denormalizeIntelxId reg) items)
  | JObj entries =>
      JObj (unscan_entries reg (denormalizeIntelxId reg) [] entries)
  | _ => obj
  end.

(** ** The identity normalizer ([normalizeIdentityRecords]) *)

(** [IdentityRecord] of [types.ts]: the fields the normalizer reads. *)
Record IdentityItem : Type := {
  name : string;
  date : string;
  bucket : string;
  storageid : string;
  systemid : string
}.

Record IdentityRecord : Type := {
  item : IdentityItem;
  linea : string
}.

(** The object literal built by the first [map]; the properties are listed in
    the order the literal creates them. *)
Record IdentityNormalizedRecord : Type := {
  line : string;
  system_id : string;
  storage_id : string;
  nbucket : string;
  filename : string;
  ndate : string
}.

Definition with_line (r : IdentityNormalizedRecord) (l : string)
  : IdentityNormalizedRecord :=
  {| line := l; system_id := system_id r; storage_id := storage_id r;
     nbucket := nbucket r; filename := filename r; ndate := ndate r |}.

Definition project_identity (record : IdentityRecord) : IdentityNormalizedRecord :=
  {| line := linea record;
     system_id := systemid (item record);
     storage_id := storageid (item record);
     nbucket := bucket (item record);
     filename := name (item record);
     ndate := date (item record) |}.

Definition LF : string := String "010"%char EmptyString.

(** Property names every plain object inherits from [Object.prototype].
    [mergedByStorageId[k]] is truthy for them although the object has no own
    property [k]: the guard does not create an entry and the update of
    [.line] lands on the inherited object, so that such a record leaves
    [mergedByStorageId] without an own property.  What the update does to the
    inherited object itself is not followed here. *)
Definition Object_prototype_names : list string :=
  ["constructor"; "hasOwnProperty"; "isPrototypeOf"; "propertyIsEnumerable";
   "toLocaleString"; "toString"; "valueOf"; "__proto__"; "__defineGetter__";
   "__defineSetter__"; "__lookupGetter__"; "__lookupSetter__"]%string.

Definition inherited_name (k : string) : bool :=
  bool_decide (k ∈ Object_prototype_names).

Abbreviation merged := (list (string * IdentityNormalizedRecord)).

Fixpoint merged_get (m : merged) (k : string) : option IdentityNormalizedRecord :=
  match m with
  | [] => None
  | (k', r) :: rest => if decide (k' = k) then Some r else merged_get rest k
  end.

Fixpoint merged_set (m : merged) (k : string) (r : IdentityNormalizedRecord)
  : merged :=
  match m with
  | [] => [(k, r)]
  | (k', r') :: rest =>
      if decide (k' = k) then (k, r) :: rest else (k', r') :: merged_set rest k r
  end.

(** One turn of [normalizedRecords.forEach]: seed the group with an empty
    line if it is new, then append ["\n" + record.line]. *)
Definition merge_step (m : merged) (record : IdentityNormalizedRecord) : merged :=
  let k := storage_id record in
  if inherited_name k then m
  else
    let m1 := match merged_get m k with
              | Some _ => m
              | None => merged_set m k (with_line record "")
              end in
    match merged_get m1 k with
    | Some g => merged_set m1 k (with_line g (line g +:+ LF +:+ line record))
    | None => m1
    end.

(** [mergedByStorageId] after the [forEach]. *)
Definition mergeByStorageId (normalizedRecords : list IdentityNormalizedRecord)
  : merged :=
  fold_left merge_step normalizedRecords [].

(** A canonical array index: decimal digits without a leading zero, below
    2^32 - 1.  JavaScript enumerates such property names first, in ascending
    numeric order, and the other names after them in insertion order. *)
Definition digit_value (c : ascii) : option Z :=
  let n := Z.of_nat (nat_of_ascii c) in
  if (48 <=? n) && (n <=? 57) then Some (n - 48) else None.

Fixpoint decimal_value (acc : Z) (s : string) : option Z :=
  match s with
  | EmptyString => Some acc
  | String c r =>
      match digit_value c with
      | Some d => decimal_value (10 * acc + d) r
      | None => None
      end
  end.

Definition array_index (k : string) : option Z :=
  match k with
  | EmptyString => None
  | String c r =>
      if bool_decide (c = "0"%char) then
        (if bool_decide (r = EmptyString) then Some 0 else None)
      else if Nat.leb (String.length k) 10 then
        match decimal_value 0 k with
        | Some n => if n <? 4294967295 then Some n else None
        | None => None
        end
      else None
  end.

Definition index_le (a b : Z * IdentityNormalizedRecord) : Prop := a.1 ≤ b.1.

#[local] Instance index_le_dec a b : Decision (index_le a b) :=
  Z_le_dec a.1 b.1.

(** [Object.values(mergedByStorageId)] *)
Definition Object_values (m : merged) : list IdentityNormalizedRecord :=
  map snd
    (merge_sort index_le
       (omap (λ kv : string * IdentityNormalizedRecord,
                match array_index kv.1 with
                | Some i => Some (i, kv.2)
                | None => None
                end) m))
  ++ omap (λ kv : string * IdentityNormalizedRecord,
             match array_index kv.1 with
             | Some _ => None
             | None => Some kv.2
             end) m.

(** [String.prototype.trim] strips white space and line terminators; among
    the code units below 256 these are TAB, LF, VT, FF, CR, SPACE and NBSP. *)
Definition is_js_space (c : ascii) : bool :=
  bool_decide (nat_of_ascii c ∈ [9; 10; 11; 12; 13; 32; 160]%nat).

Fixpoint trimStart (s : string) : string :=
  match s with
  | EmptyString => EmptyString
  | String c r => if is_js_space c then trimStart r else s
  end.

Definition trim (s : string) : string :=
  String.rev (trimStart (String.rev (trimStart s))).

(** [`...(More ${n} characters)`] *)
Definition more_marker (n : Z) : string :=
  "...(More " +:+ pretty n +:+ " characters)".

(** The body of the second [map]: trim, then cut at 128 code units. *)
Definition render_line (raw : string) : string :=
  let line := trim raw in
  if 128 <? Z.of_nat (String.length line) then
    String.substring 0 128 line
      +:+ more_marker (Z.of_nat (String.length line) - 128)
  else line.

Definition truncate_record (record : IdentityNormalizedRecord)
  : IdentityNormalizedRecord :=
  with_line record (render_line (line record)).

(** The JSON object a normalized record is. *)
Definition identity_to_json (r : IdentityNormalizedRecord) : json :=
  JObj [("line", JStr (line r)); ("system_id", JStr (system_id r));
        ("storage_id", JStr (storage_id r)); ("bucket", JStr (nbucket r));
        ("filename", JStr (filename r)); ("date", JStr (ndate r))]%string.

(** The records before the final [normalizeIntelxId]. *)
Definition mergeAndTruncate (allRecords : list IdentityRecord)
  : list IdentityNormalizedRecord :=
  map truncate_record
    (Object_values (mergeByStorageId (map project_identity allRecords))).

Definition normalizeIdentityRecords (reg : Registry)
    (allRecords : list IdentityRecord) : Registry * json :=
  normalizeIntelxId reg (JArr (map identity_to_json (mergeAndTruncate allRecords))).

(** ** Upstream calls, errors and the monad of the clients *)

(** The upstream requests the clients issue, in the order they reach
    [fetch].  The rate limiter and the one-second pause of each poll round only
    delay a request; they are not part of the log.  A request is recorded
    with its path, the job handle or identifier it carries and, for a poll,
    its limit; the other query parameters are left out. *)
Inductive Call : Type :=
| Submit (path : string)
| Poll (path : string) (id : string) (limit : Z)
| Terminate (path : string) (id : string)
| FileCall (path : string) (param : string) (id : string) (bucket : string).

#[local] Instance Call_eq_dec : EqDecision Call.
Proof. solve_decision. Defined.

(** The [Error]s the clients and handlers throw, by message. *)
Inductive Error : Type :=
| ApiError (code : Z)                  (* `API error ${response.status}: ...` *)
| InvalidSearchTerm                    (* "Invalid search term" *)
| InvalidSearchId (id : string)        (* `Invalid search ID: ${searchId}` *)
| InvalidIdentifier (param : string) (id : Z)
                                       (* `Invalid storage_id: ...`, `Invalid system_id: ...` *)
| TreeViewFailed                       (* "Could not generate tree view" *)
| MissingParameters.                   (* "Missing required parameters" *)

Record World : Type := {
  registry : Registry;
  calls : list Call
}.

Inductive Outcome (A : Type) : Type :=
| Returned (a : A)
| Threw (e : Error)
| OutOfFuel.
Arguments Returned {A} a.
Arguments Threw {A} e.
Arguments OutOfFuel {A}.

Definition M (A : Type) : Type := World → Outcome A * World.

Definition ret {A} (a : A) : M A := λ w, (Returned a, w).
Definition throw {A} (e : Error) : M A := λ w, (Threw e, w).
Definition out_of_fuel {A} : M A := λ w, (OutOfFuel, w).
Definition bind {A B} (m : M A) (k : A → M B) : M B :=
  λ w, match m w with
       | (Returned a, w') => k a w'
       | (Threw e, w') => (Threw e, w')
       | (OutOfFuel, w') => (OutOfFuel, w')
       end.

Notation "'let!' x := m 'in' k" := (bind m (λ x, k))
  (at level 10, x name, m at level 100, k at level 200).
Notation "'run!' m 'in' k" := (bind m (λ _, k))
  (at level 10, m at level 100, k at level 200).

(** [fetch]: the request is appended to the log.  The clients are followed
    on requests that resolve and bodies that decode.  A rejected [fetch] or a
    failing [response.json()] raises an exception that is none of the [Error]s
    above and that no client catches: such a run ends there, with neither a
    result nor one of these errors, and is not among the runs described. *)
Definition fetch (c : Call) : M unit :=
  λ w, (Returned (), {| registry := registry w; calls := calls w ++ [c] |}).

Definition get_registry : M Registry := λ w, (Returned (registry w), w).

(** [.then(normalizeIntelxId)] on the module-level registry *)
Definition normalizeM (v : json) : M json :=
  λ w, let '(reg', v') := normalizeIntelxId (registry w) v in
       (Returned v', {| registry := reg'; calls := calls w |}).

(** An HTTP response: [response.ok], [response.status] and the decoded body. *)
Record Http (A : Type) : Type := {
  ok : bool;
  code : Z;
  body : A
}.
Arguments ok {A} _.
Arguments code {A} _.
Arguments body {A} _.

(** [{id, status}] of a submit response. *)
Record SearchResponse : Type := {
  sr_id : string;
  sr_status : Z
}.

(** [{status, records}] of a poll response; [records] may be missing. *)
Record ResultResponse (Rec : Type) : Type := {
  status : Z;
  records : option (list Rec)
}.
Arguments status {Rec} _.
Arguments records {Rec} _.

(** [{status, selectors}] of a phonebook poll response. *)
Record PhonebookResultResponse (Sel : Type) : Type := {
  pb_status : Z;
  selectors : list Sel
}.
Arguments pb_status {Sel} _.
Arguments selectors {Sel} _.

(** What a finished polling loop leaves behind: the accumulated list, the
    remaining budget and the status of the last poll response. *)
Record Session (A : Type) : Type := {
  accumulated : list A;
  remainingBudget : Z;
  lastStatus : Z
}.
Arguments accumulated {A} _.
Arguments remainingBudget {A} _.
Arguments lastStatus {A} _.

(** [x || d] for an optional number: [undefined] and [0] are falsy. *)
Definition or_default (x : option Z) (d : Z) : Z :=
  match x with
  | Some n => if n =? 0 then d else n
  | None => d
  end.

Definition count {A} (l : list A) : Z := Z.of_nat (length l).

Section Clients.

(** [SEARCH_STATUS] of [constants.ts], which is not part of the sources at
    hand: its three members are parameters. *)
Variables SUCCESS NO_MORE_RESULTS NOT_FOUND : Z.

Variables Rec Sel : Type.

(** The upstream service: the submit response, and the response to the
    poll of a given round (counted from 0) for a handle and a limit. *)
Variable submit_response : Http SearchResponse.
Variable poll_response : nat → string → Z → Http (ResultResponse Rec).
Variable phonebook_response : nat → string → Z → Http (PhonebookResultResponse Sel).

(** *** [IntelXClient] *)

Definition intelligentSearch : M string :=
  run! fetch (Submit "/intelligent/search") in
  let response := submit_response in
  if negb (ok response) then throw (ApiError (code response))
  else
    let data := body response in
    if sr_status data =? 1 then throw InvalidSearchTerm
    else ret (sr_id data).

Definition getSearchResults (round : nat) (searchId : string) (limit : Z)
  : M (ResultResponse Rec) :=
  run! fetch (Poll "/intelligent/search/result" searchId limit) in
  let response := poll_response round searchId limit in
  if negb (ok response) then throw (ApiError (code response))
  else ret (body response).

Definition terminateSearch (searchId : string) : M unit :=
  fetch (Terminate "/intelligent/search/terminate" searchId).

(** The [while (true)] loop of [IntelXClient.search]. *)
Fixpoint search_loop (fuel : nat) (round : nat) (searchId : string)
    (allRecords : list Rec) (maxresults : Z) : M (Session Rec) :=
  match fuel with
  | O => out_of_fuel
  | S fuel' =>
      let! results := getSearchResults round searchId maxresults in
      let '(allRecords, maxresults) :=
        match records results with
        | Some rs => (allRecords ++ rs, maxresults - count rs)
        | None => (allRecords, maxresults)
        end in
      if (status results =? SUCCESS)
         && match records results with
            | Some rs => count rs =? 0
            | None => true
            end
      then search_loop fuel' (S round) searchId allRecords maxresults
      else if (status results =? NO_MORE_RESULTS)
              || (status results =? NOT_FOUND)
              || (maxresults <=? 0)
      then
        run! (if maxresults <=? 0 then terminateSearch searchId else ret ()) in
        ret {| accumulated := allRecords; remainingBudget := maxresults;
               lastStatus := status results |}
      else search_loop fuel' (S round) searchId allRecords maxresults
  end.

(** [IntelXClient.search]; the result is [{status: 0, records: allRecords}]. *)
Definition search_session (fuel : nat) (maxresults : option Z)
  : M (Session Rec) :=
  let! searchId := intelligentSearch in
  search_loop fuel 0 searchId [] (or_default maxresults 100).

Definition search (fuel : nat) (maxresults : option Z)
  : M (ResultResponse Rec) :=
  let! s := search_session fuel maxresults in
  ret {| status := 0; records := Some (accumulated s) |}.

Definition phonebookSearch : M string :=
  run! fetch (Submit "/phonebook/search") in
  let response := submit_response in
  if negb (ok response) then throw (ApiError (code response))
  else ret (sr_id (body response)).

Definition getPhonebookResults (round : nat) (searchId : string) (limit : Z)
  : M (PhonebookResultResponse Sel) :=
  run! fetch (Poll "/phonebook/search/result" searchId limit) in
  let response := phonebook_response round searchId limit in
  if negb (ok response) then throw (ApiError (code response))
  else ret (body response).

(** The loop of [phonebookSearchComplete]: every round's response is kept. *)
Fixpoint phonebook_loop (fuel : nat) (round : nat) (searchId : string)
    (allResults : list (PhonebookResultResponse Sel)) (maxresults : Z)
  : M (Session (PhonebookResultResponse Sel)) :=
  match fuel with
  | O => out_of_fuel
  | S fuel' =>
      let! results := getPhonebookResults round searchId maxresults in
      let allResults := allResults ++ [results] in
      let maxresults := maxresults - count (selectors results) in
      if (pb_status results =? NO_MORE_RESULTS)
         || (pb_status results =? NOT_FOUND)
         || (maxresults <=? 0)
      then
        run! (if maxresults <=? 0 then terminateSearch searchId else ret ()) in
        ret {| accumulated := allResults; remainingBudget := maxresults;
               lastStatus := pb_status results |}
      else phonebook_loop fuel' (S round) searchId allResults maxresults
  end.

Definition phonebookSearchComplete_session (fuel : nat) (maxresults : option Z)
  : M (Session (PhonebookResultResponse Sel)) :=
  let! searchId := phonebookSearch in
  phonebook_loop fuel 0 searchId [] (or_default maxresults 1000).

Definition phonebookSearchComplete (fuel : nat) (maxresults : option Z)
  : M (list (PhonebookResultResponse Sel)) :=
  let! s := phonebookSearchComplete_session fuel maxresults in
  ret (accumulated s).

(** *** [IdentityClient] *)

Definition identity_getSearchResults (round : nat) (searchId : string)
    (maxresults : Z) : M (ResultResponse Rec) :=
  run! fetch (Poll "/live/search/result" searchId maxresults) in
  let response := poll_response round searchId maxresults in
  if negb (ok response) then throw (ApiError (code response))
  else ret (body response).

Definition identity_terminateSearch (searchId : string) : M unit :=
  fetch (Terminate "/live/search/terminate" searchId).

(** The submit part shared by [IdentityClient.search] and [exportAccounts]. *)
Definition identity_submit (path : string) : M string :=
  run! fetch (Submit path) in
  let response := submit_response in
  if negb (ok response) then throw (ApiError (code response))
  else
    let searchId := sr_id (body response) in
    if Nat.leb (String.length searchId) 3 then throw (InvalidSearchId searchId)
    else ret searchId.

(** The [while (true)] loop of [IdentityClient.search]. *)
Fixpoint identity_loop (fuel : nat) (round : nat) (searchId : string)
    (allRecords : list Rec) (maxresults : Z) : M (Session Rec) :=
  match fuel with
  | O => out_of_fuel
  | S fuel' =>
      let! results := identity_getSearchResults round searchId maxresults in
      let '(allRecords, maxresults) :=
        match status results =? 0, records results with
        | true, Some rs => (allRecords ++ rs, maxresults - count rs)
        | _, _ => (allRecords, maxresults)
        end in
      if (status results =? 2) || (maxresults <=? 0) then
        let allRecords :=
          match records results with
          | Some rs => allRecords ++ rs
          | None => allRecords
          end in
        run! (if maxresults <=? 0 then identity_terminateSearch searchId
         else ret ()) in
        ret {| accumulated := allRecords; remainingBudget := maxresults;
               lastStatus := status results |}
      else if status results =? 3 then
        run! identity_terminateSearch searchId in
        ret {| accumulated := allRecords; remainingBudget := maxresults;
               lastStatus := status results |}
      else identity_loop fuel' (S round) searchId allRecords maxresults
  end.

(** [IdentityClient.search]; [limit] is [params.limit]. *)
Definition identity_search_session (fuel : nat) (limit : option Z)
  : M (Session Rec) :=
  let! searchId := identity_submit "/live/search/internal" in
  identity_loop fuel 0 searchId [] (or_default limit 100).

Definition identity_search (fuel : nat) (limit : option Z) : M (list Rec) :=
  let! s := identity_search_session fuel limit in
  ret (accumulated s).

(** The loop of [IdentityClient.exportAccounts]. *)
Fixpoint export_loop (fuel : nat) (round : nat) (searchId : string)
    (allRecords : list Rec) (remaining : Z) : M (Session Rec) :=
  match fuel with
  | O => out_of_fuel
  | S fuel' =>
      let! results := identity_getSearchResults round searchId remaining in
      let '(allRecords, remaining) :=
        match status results =? 0, records results with
        | true, Some rs => (allRecords ++ rs, remaining - count rs)
        | _, _ => (allRecords, remaining)
        end in
      if (status results =? 2) || (remaining <=? 0) then
        run! (if remaining <=? 0 then identity_terminateSearch searchId
         else ret ()) in
        ret {| accumulated := allRecords; remainingBudget := remaining;
               lastStatus := status results |}
      else export_loop fuel' (S round) searchId allRecords remaining
  end.

(** [exportAccounts]; [maxresults] has the default value 100. *)
Definition exportAccounts_session (fuel : nat) (maxresults : option Z)
  : M (Session Rec) :=
  let! searchId := identity_submit "/accounts/csv" in
  export_loop fuel 0 searchId []
    (match maxresults with Some n => n | None => 100 end).

Definition exportAccounts (fuel : nat) (maxresults : option Z) : M (list Rec) :=
  let! s := exportAccounts_session fuel maxresults in
  ret (accumulated s).

End Clients.

(** ** Dependent single-shot operations *)

(** [`${x}`] of an optional string in a URL template. *)
Definition template (x : option string) : string :=
  match x with Some s => s | None => "undefined" end.

(** [if (x)] for an optional string: [undefined] and [""] are falsy. *)
Definition truthy (x : option string) : bool :=
  match x with Some s => negb (bool_decide (s = "")) | None => false end.

Section Handlers.

(** The upstream file service.  [could_not_generate] tells whether the
    text of a tree-view response includes "Could not generate". *)
Variable file_response : Call → Http json.
Variable could_not_generate : Call → bool.

Definition request (c : Call) : M json :=
  run! fetch c in
  let response := file_response c in
  if negb (ok response) then throw (ApiError (code response))
  else ret (body response).

Definition filePreview (storageId bucket : string) : M json :=
  request (FileCall "/file/preview" "sid" storageId bucket).

Definition fileView (storageId bucket : string) : M json :=
  request (FileCall "/file/view" "storageid" storageId bucket).

(** The body is an [ArrayBuffer]; its content is not modelled. *)
Definition fileRead (systemId bucket : string) : M json :=
  request (FileCall "/file/read" "systemid" systemId bucket).

Definition fileTreeView (bucket : string) (storageId systemId : option string)
  : M json :=
  let c :=
    if truthy storageId then
      FileCall "/file/view" "storageid" (template storageId) bucket
    else if truthy systemId then
      FileCall "/file/view" "systemid" (template systemId) bucket
    else FileCall "/file/view" "" "" bucket in
  let! text := request c in
  if could_not_generate c then throw TreeViewFailed else ret text.

Definition getSelectors (systemId : string) : M json :=
  request (FileCall "/item/selector/list/human" "id" systemId "").

(** The pattern every tool handler repeats:
    [const original = getOriginalUuid(field, +validated.x);
     if (!original) throw new Error(`Invalid x: ...`)]. *)
Definition resolve_or_throw (field param : string) (id : Z) : M string :=
  let! reg := get_registry in
  let original := getOriginalUuid reg field id in
  if truthy original then ret (template original)
  else throw (InvalidIdentifier param id).

(** The tool handlers, after the schema's [parse] has accepted the
    parameters. *)
Definition intelx_file_preview (storage_id : Z) (bucket : string) : M json :=
  let! originalStorageId := resolve_or_throw "storageid" "storage_id" storage_id in
  let! preview := filePreview originalStorageId bucket in
  normalizeM preview.

Definition intelx_file_view (storage_id : Z) (bucket : string) : M json :=
  let! originalStorageId := resolve_or_throw "storageid" "storage_id" storage_id in
  let! content := fileView originalStorageId bucket in
  normalizeM content.

Definition intelx_file_read (system_id : Z) (bucket : string) : M json :=
  let! originalSystemId := resolve_or_throw "systemid" "system_id" system_id in
  let! data := fileRead originalSystemId bucket in
  normalizeM data.

(** [if (validated.x)] for an optional number: [undefined] and [0] skip
    the resolution. *)
Definition resolve_optional (field param : string) (id : option Z)
  : M (option string) :=
  match id with
  | Some n =>
      if n =? 0 then ret None
      else let! s := resolve_or_throw field param n in ret (Some s)
  | None => ret None
  end.

Definition intelx_file_treeview (bucket : string) (storage_id system_id : option Z)
  : M json :=
  let! originalStorageId := resolve_optional "storageid" "storage_id" storage_id in
  let! originalSystemId := resolve_optional "systemid" "system_id" system_id in
  let! tree := fileTreeView bucket originalStorageId originalSystemId in
  normalizeM tree.

Definition intelx_get_selectors (system_id : Z) : M json :=
  let! originalSystemId := resolve_or_throw "systemid" "system_id" system_id in
  let! selectors := getSelectors originalSystemId in
  normalizeM selectors.

(** The resource handlers.  [systemId] and [storageId] are the numbers
    [+systemId] and [+storageId] of the URI; the URI template gives no empty
    identifier.  The result of [getOriginalUuid] is passed on [as string]
    without a test. *)
Definition file_resource (systemId : Z) (bucket : string) : M json :=
  if bool_decide (bucket = "") then throw MissingParameters
  else
    let! reg := get_registry in
    fileRead (template (getOriginalUuid reg "systemid" systemId)) bucket.

Definition tree_resource (storageId : Z) (bucket : string) : M json :=
  if bool_decide (bucket = "") then throw MissingParameters
  else
    let! reg := get_registry in
    let! tree := fileTreeView bucket (getOriginalUuid reg "storageid" storageId) None in
    normalizeM tree.

End Handlers.

(** ** Specification-level notions *)

(** The registry invariant: the two tables of a field mirror each other and
    every identifier handed out lies between 1 and the field's counter. *)
Record reg_inv (reg : Registry) : Prop := {
  inv_fwd_rev : ∀ f s n,
    uuidToIdMaps reg f !! s = Some n → idToUuidMaps reg f !! n = Some s;
  inv_rev_fwd : ∀ f s n,
    idToUuidMaps reg f !! n = Some s → uuidToIdMaps reg f !! s = Some n;
  inv_bound : ∀ f s n,
    uuidToIdMaps reg f !! s = Some n → 1 ≤ n < counters reg f;
  inv_counter : ∀ f, 1 ≤ counters reg f
}.

(** Entries are never removed or changed. *)
Definition reg_le (r r' : Registry) : Prop :=
  ∀ f s n, uuidToIdMaps r f !! s = Some n → uuidToIdMaps r' f !! s = Some n.

(** The operations that touch the registry during a process run. *)
Inductive RegistryOp : Type :=
| OpAssign (field value : string)
| OpNormalize (tree : json).

Definition apply_op (reg : Registry) (op : RegistryOp) : Registry :=
  match op with
  | OpAssign f v => (assign reg f v).1
  | OpNormalize t => (normalizeIntelxId reg t).1
  end.

Definition run_ops (reg : Registry) (ops : list RegistryOp) : Registry :=
  fold_left apply_op ops reg.

(** What the forward walk does to one property. *)
Definition entry_step (reg : Registry) (key : string) (value : json)
  : Registry * json :=
  match is_transition_field key, value with
  | true, JStr s => let '(reg1, id) := assign reg key s in (reg1, JNum id)
  | _, _ => normalizeIntelxId reg value
  end.

(** What the reverse walk does to one property. *)
Definition entry_back (reg : Registry) (key : string) (value : json) : json :=
  match is_transition_field key, value with
  | true, JNum n =>
      match idToUuidMaps reg key !! n with Some s => JStr s | None => JNum n end
  | _, _ => denormalizeIntelxId reg value
  end.

(** A tree the forward walk has nothing left to do on: property names are
    distinct and no transition field holds a string. *)
Fixpoint normal (v : json) : Prop :=
  match v with
  | JArr items => foldr (λ x acc, normal x ∧ acc) True items
  | JObj entries =>
      plain_keys (keys entries) ∧
      foldr (λ kv acc,
               (normal kv.2 ∧
                ¬ (is_transition_field kv.1 = true ∧ ∃ s, kv.2 = JStr s)) ∧ acc)
            True entries
  | _ => True
  end.

Definition terminate_issued (cs : list Call) : Prop :=
  ∃ path id, Terminate path id ∈ cs.

Definition is_poll (c : Call) : bool :=
  match c with Poll _ _ _ => true | _ => false end.

Definition is_terminate (c : Call) : bool :=
  match c with Terminate _ _ => true | _ => false end.

Definition fresh_world : World :=
  {| registry := initial_registry; calls := [] |}.

(** A walk keeps the invariant on [v] and only adds entries. *)
Definition keeps (deepScan : Registry → json → Registry * json) (v : json) : Prop :=
  ∀ reg, reg_inv reg → reg_inv (deepScan reg v).1 ∧ reg_le reg (deepScan reg v).1.

(** A property the forward walk leaves alone. *)
Definition settled (kv : string * json) : Prop :=
  normal kv.2 ∧ ¬ (is_transition_field kv.1 = true ∧ ∃ s, kv.2 = JStr s).

(** The forward walk over the properties of an object whose names are
    ordinary and distinct: [entry_step] property by property. *)
Fixpoint entries_map (reg : Registry) (l : object) : Registry * object :=
  match l with
  | [] => (reg, [])
  | (key, value) :: rest =>
      let '(reg1, value') := entry_step reg key value in
      let '(reg2, rest') := entries_map reg1 rest in
      (reg2, (key, value') :: rest')
  end.

(** Arrays and objects: the values a path can go into. *)
Definition container (v : json) : Prop :=
  match v with JArr _ | JObj _ => True | _ => False end.

Ltac decide_same := repeat (rewrite decide_True by reflexivity; simpl).

Definition digits10 : string := "0123456789".


(** The world after one more request. *)
Definition logged (w : World) (c : Call) : World :=
  {| registry := registry w; calls := calls w ++ [c] |}.

(** The requests a finished loop has added to the log: polls, then at most
    one terminate. *)
Definition loop_log (w w' : World) (tail : list Call) : Prop :=
  registry w' = registry w
  ∧ ∃ polls, Forall (λ c, is_poll c = true) polls
             ∧ calls w' = calls w ++ polls ++ tail.

(** An upstream that answers the poll of round [i] with the [i]-th outcome of
    a script and with [rest] once the script is used up. *)
Definition scripted {Rec} (rounds : list (ResultResponse Rec))
    (rest : ResultResponse Rec) : nat → string → Z → Http (ResultResponse Rec) :=
  λ round _ _, {| ok := true; code := 200; body := default rest (rounds !! round) |}.

(** A successful submit response with handle [id] and status [st]. *)
Definition submitted (id : string) (st : Z) : Http SearchResponse :=
  {| ok := true; code := 200; body := {| sr_id := id; sr_status := st |} |}.

(** A poll outcome with status [st] and the records [rs]. *)
Definition outcome {Rec} (st : Z) (rs : list Rec) : ResultResponse Rec :=
  {| status := st; records := Some rs |}.

(** A run that ends with an error before any poll request. *)
Definition rejected_before_poll {A} (run : Outcome A * World) : Prop :=
  (∃ e, run.1 = Threw e) ∧ Forall (λ c, is_poll c = false) (calls run.2).

(** Decide the tests of a run whose operands are closed. *)
Ltac decide_closed :=
  repeat match goal with
    | |- context [if ?b then _ else _] =>
        let v := eval vm_compute in b in
        match v with
        | true => change b with true
        | false => change b with false
        end; cbv iota
    end.

(** ** Further notions used by the properties below *)

(** The identifiers of a field are handed out densely: the reverse table
    holds exactly the numbers from 1 up to the counter, and the counter is
    one more than the number of raw values seen. *)
Definition reg_dense (reg : Registry) : Prop :=
  ∀ f, (∀ n, is_Some (idToUuidMaps reg f !! n) ↔ 1 ≤ n < counters reg f)
       ∧ counters reg f = Z.of_nat (size (uuidToIdMaps reg f)) + 1.

(** No property of the tree is named after a transition field. *)
Fixpoint no_transition_keys (v : json) : Prop :=
  match v with
  | JArr items => foldr (λ x acc, no_transition_keys x ∧ acc) True items
  | JObj entries =>
      foldr (λ kv acc,
               (is_transition_field kv.1 = false ∧ no_transition_keys kv.2) ∧ acc)
            True entries
  | _ => True
  end.

(** What the forward walk leaves at a place that held the scalar [v]: the
    identifier registered for it when the place is a transition field holding
    a string, and [v] itself everywhere else. *)
Definition pseudonym_of (reg : Registry) (p : list step) (v out : json) : Prop :=
  match last p, v with
  | Some (Key k), JStr s =>
      if is_transition_field k
      then ∃ n, out = JNum n ∧ getOriginalUuid reg k n = Some s
      else out = v
  | _, _ => out = v
  end.



(** [PhonebookSelector] of [types.ts]: the fields the code reads. *)
Record PhonebookSelector : Type := {
  selectortype : Z;
  selectortypeh : string;
  selectorvalue : string
}.

(** [normalizePhoneBookResponse]: the selector values of all rounds, in
    order. *)
Definition normalizePhoneBookResponse
    (allRecords : list (PhonebookResultResponse PhonebookSelector)) : list string :=
  flat_map (λ response, map selectorvalue (selectors response)) allRecords.

(** The selectors a list of poll responses carries in all. *)
Definition selector_total {Sel} (rounds : list (PhonebookResultResponse Sel)) : Z :=
  foldr (λ response acc, count (selectors response) + acc) 0 rounds.

(** A run that is still polling when its fuel is used up: [n] polls and
    nothing else have been added to the log. *)
Definition still_polling {A} (run : Outcome A * World) (w : World) (n : nat) : Prop :=
  run.1 = OutOfFuel
  ∧ ∃ polls, length polls = n ∧ Forall (λ c, is_poll c = true) polls
             ∧ calls run.2 = calls w ++ polls.

(** ** Request schemas ([validators.ts] and the tools' declared input) *)

(** The zod types the schemas are built from.  [ZNumber lower] is
    [z.number()] with an optional lower bound ([.min(n)]; [.positive()] on an
    integer is the bound 1); numbers in a [json] tree are integers, so
    [.int()] holds of all of them. *)
Inductive ZodType : Type :=
| ZString (min : nat)
| ZNumber (lower : option Z)
| ZBoolean
| ZEnum (values : list string)
| ZArrayOfString
| ZOptional (t : ZodType)
| ZDefault (t : ZodType) (d : json).

Definition zod_accepts (t : ZodType) (x : json) : bool :=
  match t, x with
  | ZString min, JStr s => Nat.leb min (String.length s)
  | ZNumber lower, JNum n =>
      match lower with Some l => l <=? n | None => true end
  | ZBoolean, JBool _ => true
  | ZEnum values, JStr s => bool_decide (s ∈ values)
  | ZArrayOfString, JArr items =>
      forallb (λ i, match i with JStr _ => true | _ => false end) items
  | _, _ => false
  end.

(** Parsing one property: [None] is a validation failure, [Some None] an
    optional property that stays absent, [Some (Some x)] the parsed value. *)
Fixpoint parse_field (t : ZodType) (v : option json) : option (option json) :=
  match t with
  | ZOptional t' =>
      match v with None => Some None | Some _ => parse_field t' v end
  | ZDefault t' d =>
      match v with None => Some (Some d) | Some _ => parse_field t' v end
  | _ =>
      match v with
      | Some x => if zod_accepts t x then Some (Some x) else None
      | None => None
      end
  end.

(** [z.object(shape).parse(input)]: the properties of the shape in its order,
    unknown properties dropped; [None] when a property fails. *)
Fixpoint parse_fields (shape : list (string * ZodType)) (input : object)
  : option object :=
  match shape with
  | [] => Some []
  | (k, t) :: rest =>
      match parse_field t (obj_get input k), parse_fields rest input with
      | Some (Some x), Some out => Some ((k, x) :: out)
      | Some None, Some out => Some out
      | _, _ => None
      end
  end.

(** The schemas of [validators.ts] that the handlers below use. *)
Definition filePreviewSchema : list (string * ZodType) :=
  [("storage_id", ZNumber (Some 1)); ("bucket", ZString 1);
   ("media", ZNumber (Some 0)); ("type", ZNumber (Some 0));
   ("lines", ZDefault (ZNumber (Some 1)) (JNum 8));
   ("format", ZDefault (ZEnum ["text"; "picture"]) (JStr "text"))]%string.

Definition fileViewSchema : list (string * ZodType) :=
  [("storage_id", ZNumber (Some 1)); ("bucket", ZString 1);
   ("media", ZNumber (Some 0)); ("type", ZNumber (Some 0))]%string.

Definition fileReadSchema : list (string * ZodType) :=
  [("system_id", ZNumber (Some 1)); ("bucket", ZString 1);
   ("filename", ZOptional (ZString 0))]%string.

Definition fileTreeViewShape : list (string * ZodType) :=
  [("bucket", ZString 1); ("storage_id", ZOptional (ZNumber None));
   ("system_id", ZOptional (ZNumber None))]%string.

(** [x] in a condition, for an optional number: [undefined] and 0 are falsy. *)
Definition number_truthy (v : option json) : bool :=
  match v with Some (JNum n) => negb (n =? 0) | _ => false end.

(** [fileTreeViewSchema]: the shape with its [refine]. *)
Definition fileTreeViewSchema_parse (input : object) : option object :=
  match parse_fields fileTreeViewShape input with
  | Some data =>
      if number_truthy (obj_get data "storage_id")
         || number_truthy (obj_get data "system_id")
      then Some data else None
  | None => None
  end.

Definition getSelectorsSchema : list (string * ZodType) :=
  [("system_id", ZNumber (Some 1))]%string.

Definition identitySearchSchema : list (string * ZodType) :=
  [("selector", ZString 1);
   ("maxresults", ZDefault (ZNumber (Some 1)) (JNum 100));
   ("buckets", ZOptional (ZString 0)); ("datefrom", ZOptional (ZString 0));
   ("dateto", ZOptional (ZString 0)); ("analyze", ZDefault ZBoolean (JBool false));
   ("skip_invalid", ZDefault ZBoolean (JBool false));
   ("terminate", ZOptional ZArrayOfString)]%string.

(** The [inputSchema] each tool is registered with. *)
Definition file_preview_input : list (string * ZodType) :=
  [("storage_id", ZString 0); ("bucket", ZString 0);
   ("media_type", ZNumber None); ("content_type", ZNumber None);
   ("lines", ZOptional (ZNumber None));
   ("format", ZOptional (ZEnum ["text"; "picture"]))]%string.

Definition file_view_input : list (string * ZodType) :=
  [("storage_id", ZString 0); ("bucket", ZString 0);
   ("media_type", ZNumber None); ("content_type", ZNumber None)]%string.

Definition file_read_input : list (string * ZodType) :=
  [("system_id", ZString 0); ("bucket", ZString 0);
   ("filename", ZOptional (ZString 0))]%string.

Definition file_treeview_input : list (string * ZodType) :=
  [("bucket", ZString 0); ("storage_id", ZOptional (ZString 0));
   ("system_id", ZOptional (ZString 0))]%string.

Definition get_selectors_input : list (string * ZodType) :=
  [("system_id", ZString 0)]%string.

Definition identity_search_input : list (string * ZodType) :=
  [("selector", ZString 0); ("maxresults", ZOptional (ZNumber None));
   ("buckets", ZOptional (ZString 0)); ("datefrom", ZOptional (ZString 0));
   ("dateto", ZOptional (ZString 0)); ("analyze", ZOptional ZBoolean);
   ("skip_invalid", ZOptional ZBoolean);
   ("terminate", ZOptional ZArrayOfString)]%string.

(** [params.limit] of an [IdentitySearchRequest], a number when present. *)
Definition number_property (o : object) (k : string) : option Z :=
  match obj_get o k with Some (JNum n) => Some n | _ => None end.

(** The polling part of the [intelx_identity_search] handler:
    [identityClient.search(validated)], which takes its budget from
    [params.limit]. *)
Definition identity_search_of_validated (Rec : Type)
    (submit_response : Http SearchResponse)
    (poll_response : nat → string → Z → Http (ResultResponse Rec))
    (fuel : nat) (validated : object) : M (Session Rec) :=
  identity_search_session Rec submit_response poll_response fuel
    (number_property validated "limit").

(** ** [searchStats] *)

(** [record.bucket || "unknown"] *)
Definition bucket_or_unknown (bucket : option string) : string :=
  match bucket with
  | Some b => if bool_decide (b = "") then "unknown" else b
  | None => "unknown"
  end.

(** [searchStats]: the number of records per bucket.  [stats] is a plain
    object, so that [stats[bucket]] for a name inherited from
    [Object.prototype] is not a count; such inputs are outside this
    definition ([None]). *)
Fixpoint searchStats_from (stats : gmap string Z) (records : list (option string))
  : option (gmap string Z) :=
  match records with
  | [] => Some stats
  | record :: rest =>
      let bucket := bucket_or_unknown record in
      if inherited_name bucket then None
      else searchStats_from
             (<[bucket := default 0 (stats !! bucket) + 1]> stats) rest
  end.

Definition searchStats (records : list (option string)) : option (gmap string Z) :=
  searchStats_from ∅ records.

(** The number of [records] whose bucket, as [searchStats] reads it, is [b]. *)
Definition bucket_count (b : string) (records : list (option string)) : Z :=
  Z.of_nat (length (filter (λ r, bucket_or_unknown r = b) records)).

(** The sum of the counts of a statistics object. *)
Definition stats_total (stats : gmap string Z) : Z :=
  map_fold (λ _ n acc, n + acc) 0 stats.

(** ** [normalizeSearchRecordResponse] *)

(** A [SearchRecord], with the properties the normalizer reads. *)
Module Search.
Record SearchRecord : Type := {
  systemid : string;
  bucket : string;
  name : string;
  indexfile : option string;
  storageid : string;
  media : Z;
  type : Z;
  added : string;
  date : string
}.
End Search.

(** A property whose value may be [undefined]; it is left out, as it is when
    the result is serialized. *)
Definition optional_property (k : string) (v : option string) : object :=
  match v with Some s => [(k, JStr s)] | None => [] end.

(** The object literal of [normalizeSearchRecordResponse], property by
    property. *)
Definition search_record_normalized (record : Search.SearchRecord) : json :=
  JObj ([("system_id", JStr (Search.systemid record));
         ("bucket", JStr (Search.bucket record));
         ("name", JStr (Search.name record))]
        ++ optional_property "indexfile" (Search.indexfile record)
        ++ [("storage_id", JStr (Search.storageid record));
            ("media", JNum (Search.media record));
            ("type", JNum (Search.type record));
            ("added", JStr (Search.added record));
            ("date", JStr (Search.date record))]).

(** [response.records.map(...)] *)
Definition normalizeSearchRecordResponse (records : list Search.SearchRecord)
  : json :=
  JArr (map search_record_normalized records).

(** What the search tool's handler makes of the records the client returns:
    [.then(normalizeSearchRecordResponse).then(normalizeIntelxId)]. *)
Definition search_tool_results (reg : Registry)
    (records : list Search.SearchRecord) : Registry * json :=
  normalizeIntelxId reg (normalizeSearchRecordResponse records).

(** ** Sample data and proof automation for the properties below *)

(** A phonebook upstream that answers every poll with the same two selectors. *)
Definition sample_selectors : list PhonebookSelector :=
  [ {| selectortype := 1; selectortypeh := "Email"; selectorvalue := "a@x.org" |};
    {| selectortype := 1; selectortypeh := "Email"; selectorvalue := "b@x.org" |} ].

Definition sample_phonebook
  : nat → string → Z → Http (PhonebookResultResponse PhonebookSelector) :=
  λ _ _ _, {| ok := true; code := 200;
              body := {| pb_status := 0; selectors := sample_selectors |} |}.

(** Side conditions on a schema's shape: distinct names, a declared entry. *)
Ltac shape_facts :=
  match goal with
  | |- NoDup _ => apply (bool_decide_unpack _); vm_compute; exact I
  | |- _ ∈ _ =>
      repeat first [ apply list_elem_of_here | apply list_elem_of_further ]
  end.

(** How a loop that ends with the API error of status code [c] leaves the
    log: it has added polls only, and the last of them is the request of a
    round whose response was not ok and carried the code [c]. *)
Definition failed_at_poll {A} (response : nat → string → Z → Http A)
    (id : string) (c : Z) (w w' : World) : Prop :=
  registry w' = registry w
  ∧ ∃ polls path round limit,
      calls w' = calls w ++ polls ++ [Poll path id limit]
      ∧ Forall (λ call, is_poll call = true) polls
      ∧ ok (response round id limit) = false
      ∧ code (response round id limit) = c.

(** * Properties *)

(** ** Induction on JSON-like values *)

Lemma json_ind (P : json → Prop) :
  P JNull →
  (∀ b, P (JBool b)) →
  (∀ n, P (JNum n)) →
  (∀ s, P (JStr s)) →
  (∀ items, Forall P items → P (JArr items)) →
  (∀ entries, Forall (λ kv, P kv.2) entries → P (JObj entries)) →
  ∀ v, P v.
Proof.
  intros Hnull Hbool Hnum Hstr Harr Hobj.
  fix IH 1. intros [ | b | n | s | items | entries ].
  - exact Hnull.
  - apply Hbool.
  - apply Hnum.
  - apply Hstr.
  - apply Harr. induction items as [ | x items IHitems ].
    + constructor.
    + constructor; [ apply IH | exact IHitems ].
  - apply Hobj. induction entries as [ | [k x] entries IHentries ].
    + constructor.
    + constructor; [ apply IH | exact IHentries ].
Qed.

Lemma foldr_and_Forall {A} (P : A → Prop) (l : list A) :
  foldr (λ x acc, P x ∧ acc) True l ↔ Forall P l.
Proof.
  induction l as [ | x l IH ]; simpl.
  - split; auto.
  - rewrite IH. split.
    + intros [? ?]. by constructor.
    + by inversion 1.
Qed.

(** ** Plain objects *)

Lemma obj_put_fresh (o : object) k v :
  k ∉ keys o → obj_put o k v = o ++ [(k, v)].
Proof.
  induction o as [ | [k' v'] o IH ]; simpl; intros Hk; [ done | ].
  apply not_elem_of_cons in Hk as [Hne Hk].
  rewrite decide_False by done. by rewrite IH.
Qed.

Lemma keys_obj_put (o : object) k v :
  keys (obj_put o k v) = if bool_decide (k ∈ keys o) then keys o else keys o ++ [k].
Proof.
  induction o as [ | [k' v'] o IH ]; simpl; [ done | ].
  destruct (decide (k' = k)) as [Heq | Heq].
  - subst. rewrite bool_decide_eq_true_2; [ done | apply elem_of_cons; by left ].
  - simpl. rewrite IH. case_bool_decide as Hin.
    + rewrite bool_decide_eq_true_2; [ done | apply elem_of_cons; by right ].
    + rewrite bool_decide_eq_false_2; [ done | ].
      intros [ -> | Hin' ]%elem_of_cons; done.
Qed.

Lemma keys_obj_set_fresh (o : object) k v :
  k ≠ "__proto__" → k ∉ keys o → obj_set o k v = o ++ [(k, v)].
Proof.
  intros Hp Hk. unfold obj_set. rewrite bool_decide_eq_false_2 by done.
  by apply obj_put_fresh.
Qed.

Lemma plain_keys_obj_set (o : object) k v :
  plain_keys (keys o) → plain_keys (keys (obj_set o k v)).
Proof.
  intros [Hnd Hp]. unfold obj_set. case_bool_decide as Hk; [ done | ].
  rewrite keys_obj_put. case_bool_decide as Hin; [ done | ]. split.
  - apply NoDup_app. repeat split; [ done | | apply NoDup_singleton ].
    intros x Hx Hx'%list_elem_of_singleton. by subst.
  - intros [Hin' | Hin']%elem_of_app; [ done | ].
    apply list_elem_of_singleton in Hin'. done.
Qed.

Lemma plain_keys_app_cons (copy l : object) key value :
  plain_keys (keys (copy ++ (key, value) :: l)) →
  key ≠ "__proto__"
  ∧ (key ∉ keys copy)
  ∧ plain_keys (keys ((copy ++ [(key, value)]) ++ l)).
Proof.
  intros [Hnd Hp]. rewrite <- app_assoc. simpl. split; [ | split; [ | done ] ].
  - intros ->. apply Hp. unfold keys. rewrite map_app. simpl.
    apply elem_of_app. right. apply elem_of_cons. by left.
  - unfold keys in Hnd. rewrite map_app in Hnd. simpl in Hnd.
    apply NoDup_app in Hnd as (_ & Hdisj & _). intros Hin.
    apply (Hdisj _ Hin). apply elem_of_cons. by left.
Qed.

(** ** The registry: allocation *)

Lemma assign_known reg f s n :
  uuidToIdMaps reg f !! s = Some n → assign reg f s = (reg, n).
Proof. intros H. unfold assign. by rewrite H. Qed.

Lemma assign_lookup reg f s :
  uuidToIdMaps (assign reg f s).1 f !! s = Some (assign reg f s).2.
Proof.
  unfold assign. destruct (uuidToIdMaps reg f !! s) as [n | ] eqn:Hs; simpl.
  - done.
  - by rewrite fn_lookup_insert, lookup_insert_eq.
Qed.

Lemma assign_le reg f s : reg_le reg (assign reg f s).1.
Proof.
  unfold assign, reg_le.
  destruct (uuidToIdMaps reg f !! s) as [n | ] eqn:Hs; simpl; [ done | ].
  intros f' s' n' H'. destruct (decide (f = f')) as [ <- | Hf ].
  - rewrite fn_lookup_insert. rewrite lookup_insert_ne; [ done | congruence ].
  - by rewrite fn_lookup_insert_ne.
Qed.

Lemma assign_inv reg f s : reg_inv reg → reg_inv (assign reg f s).1.
Proof.
  intros [Hfr Hrf Hb Hc]. unfold assign.
  destruct (uuidToIdMaps reg f !! s) as [n | ] eqn:Hs; simpl; [ by split | ].
  assert (Hfresh : ∀ s' n', uuidToIdMaps reg f !! s' = Some n' →
                            n' ≠ counters reg f ∧ s' ≠ s).
  { intros s' n' H'. split; [ apply Hb in H'; lia | congruence ]. }
  split; simpl.
  - intros f' s' n'. destruct (decide (f = f')) as [ <- | Hf ];
      [ rewrite !fn_lookup_insert | rewrite !fn_lookup_insert_ne by done; auto ].
    destruct (decide (s = s')) as [ <- | Hne ].
    + rewrite lookup_insert_eq. intros [= <-]. by rewrite lookup_insert_eq.
    + rewrite lookup_insert_ne by done. intros H'.
      destruct (Hfresh _ _ H') as [Hn _].
      rewrite lookup_insert_ne; [ by apply Hfr | congruence ].
  - intros f' s' n'. destruct (decide (f = f')) as [ <- | Hf ];
      [ rewrite !fn_lookup_insert | rewrite !fn_lookup_insert_ne by done; auto ].
    destruct (decide (counters reg f = n')) as [ <- | Hne ].
    + rewrite lookup_insert_eq. intros [= <-]. by rewrite lookup_insert_eq.
    + rewrite lookup_insert_ne by done. intros H'%Hrf.
      destruct (Hfresh _ _ H') as [_ Hn].
      rewrite lookup_insert_ne; [ done | congruence ].
  - intros f' s' n'. destruct (decide (f = f')) as [ <- | Hf ];
      [ rewrite !fn_lookup_insert | rewrite !fn_lookup_insert_ne by done; eauto ].
    destruct (decide (s = s')) as [ <- | Hne ].
    + rewrite lookup_insert_eq. intros [= <-]. specialize (Hc f). lia.
    + rewrite lookup_insert_ne by done. intros H'%Hb. lia.
  - intros f'. destruct (decide (f = f')) as [ <- | Hf ];
      [ rewrite !fn_lookup_insert | rewrite !fn_lookup_insert_ne by done; auto ].
    specialize (Hc f). lia.
Qed.

Lemma initial_registry_inv : reg_inv initial_registry.
Proof. split; simpl; intros; [ done | done | done | lia ]. Qed.

Lemma reg_le_refl r : reg_le r r.
Proof. by intros f s n. Qed.

Lemma reg_le_trans r1 r2 r3 : reg_le r1 r2 → reg_le r2 r3 → reg_le r1 r3.
Proof. intros H12 H23 f s n H. by apply H23, H12. Qed.

(** ** The forward walk keeps the invariant and only adds entries *)

Lemma scan_items_keeps deepScan l :
  Forall (keeps deepScan) l →
  ∀ reg, reg_inv reg →
    reg_inv (scan_items deepScan reg l).1 ∧ reg_le reg (scan_items deepScan reg l).1.
Proof.
  induction 1 as [ | x l Hx _ IH ]; intros reg Hinv; simpl.
  - split; [ done | apply reg_le_refl ].
  - destruct (Hx reg Hinv) as [Hinv1 Hle1].
    destruct (deepScan reg x) as [reg1 x']. simpl in *.
    destruct (IH reg1 Hinv1) as [Hinv2 Hle2].
    destruct (scan_items deepScan reg1 l) as [reg2 l']. simpl in *.
    split; [ done | by eapply reg_le_trans ].
Qed.

Lemma entry_keeps deepScan reg key value :
  keeps deepScan value → reg_inv reg →
  let step := match is_transition_field key, value with
              | true, JStr s => let '(reg1, id) := assign reg key s in (reg1, JNum id)
              | _, _ => deepScan reg value
              end in
  reg_inv step.1 ∧ reg_le reg step.1.
Proof.
  intros Hv Hinv.
  destruct (is_transition_field key), value; simpl; try (by apply Hv).
  pose proof (assign_inv reg key s Hinv). pose proof (assign_le reg key s).
  by destruct (assign reg key s).
Qed.

Lemma scan_entries_keeps deepScan l :
  Forall (λ kv, keeps deepScan kv.2) l →
  ∀ reg copy, reg_inv reg →
    reg_inv (scan_entries deepScan reg copy l).1
    ∧ reg_le reg (scan_entries deepScan reg copy l).1.
Proof.
  induction 1 as [ | [key value] l Hx _ IH ]; intros reg copy Hinv; simpl.
  - split; [ done | apply reg_le_refl ].
  - pose proof (entry_keeps deepScan reg key value Hx Hinv) as Hstep.
    destruct (is_transition_field key), value; simpl in *;
      try (destruct (deepScan reg _) as [reg1 v']; simpl in *;
           destruct Hstep as [Hinv1 Hle1];
           destruct (IH reg1 (obj_set copy key v') Hinv1) as [Hinv2 Hle2];
           split; [ done | by eapply reg_le_trans ]).
    destruct (assign reg key s) as [reg1 id]. simpl in *.
    destruct Hstep as [Hinv1 Hle1].
    destruct (IH reg1 (obj_set copy key (JNum id)) Hinv1) as [Hinv2 Hle2].
    split; [ done | by eapply reg_le_trans ].
Qed.

Lemma normalize_keeps v : keeps normalizeIntelxId v.
Proof.
  induction v as [ | b | n | s | items IH | entries IH ] using json_ind;
    intros reg Hinv; simpl; try (split; [ done | apply reg_le_refl ]).
  - pose proof (scan_items_keeps _ _ IH reg Hinv) as H.
    by destruct (scan_items normalizeIntelxId reg items).
  - pose proof (scan_entries_keeps _ _ IH reg [] Hinv) as H.
    by destruct (scan_entries normalizeIntelxId reg [] entries).
Qed.

Lemma normalize_inv reg v : reg_inv reg → reg_inv (normalizeIntelxId reg v).1.
Proof. intros H. by apply normalize_keeps. Qed.

Lemma run_ops_keeps ops :
  ∀ reg, reg_inv reg → reg_inv (run_ops reg ops) ∧ reg_le reg (run_ops reg ops).
Proof.
  induction ops as [ | op ops IH ]; intros reg Hinv; simpl.
  - split; [ done | apply reg_le_refl ].
  - assert (reg_inv (apply_op reg op) ∧ reg_le reg (apply_op reg op)) as [H1 H2].
    { destruct op; simpl;
        [ split; [ by apply assign_inv | apply assign_le ]
        | by apply normalize_keeps ]. }
    destruct (IH _ H1) as [H3 H4]. split; [ done | by eapply reg_le_trans ].
Qed.

(** ** Allocation is stable and injective *)

Lemma same_id_same_string reg f a b n :
  reg_inv reg →
  uuidToIdMaps reg f !! a = Some n → uuidToIdMaps reg f !! b = Some n → a = b.
Proof.
  intros Hinv Ha Hb.
  apply (inv_fwd_rev _ Hinv) in Ha. apply (inv_fwd_rev _ Hinv) in Hb. congruence.
Qed.

(** C6. For a field of the fixed set, allocation in a registry reached by any
    sequence of assign and normalize operations is stable and injective: once
    [a] has received an identifier, asking again for [a] after any further
    operations returns the same identifier, a different string [b] asked for in
    between receives a different identifier, and identifiers are positive. *)
Theorem assign_stable_and_injective
    (field a b : string) (before between after : list RegistryOp) :
  field ∈ TRANSITION_FIELDS →
  let r0 := run_ops initial_registry before in
  let r1 := (assign r0 field a).1 in
  let r2 := run_ops r1 between in
  let r3 := (assign r2 field b).1 in
  let r4 := run_ops r3 after in
  (assign r4 field a).2 = (assign r0 field a).2
  ∧ (a ≠ b → (assign r2 field b).2 ≠ (assign r0 field a).2)
  ∧ (a = b → (assign r2 field b).2 = (assign r0 field a).2)
  ∧ 1 ≤ (assign r0 field a).2.
Proof.
  intros _ r0 r1 r2 r3 r4.
  destruct (run_ops_keeps before _ initial_registry_inv) as [Hinv0 _].
  pose proof (assign_inv r0 field a Hinv0) as Hinv1. fold r1 in Hinv1.
  destruct (run_ops_keeps between _ Hinv1) as [Hinv2 Hle12]. fold r2 in Hinv2, Hle12.
  pose proof (assign_inv r2 field b Hinv2) as Hinv3. fold r3 in Hinv3.
  pose proof (assign_le r2 field b) as Hle23. fold r3 in Hle23.
  destruct (run_ops_keeps after _ Hinv3) as [Hinv4 Hle34]. fold r4 in Hinv4, Hle34.
  pose proof (assign_lookup r0 field a) as Ha1. fold r1 in Ha1.
  pose proof (Hle12 _ _ _ Ha1) as Ha2.
  pose proof (Hle23 _ _ _ Ha2) as Ha3.
  pose proof (Hle34 _ _ _ Ha3) as Ha4.
  pose proof (assign_lookup r2 field b) as Hb3. fold r3 in Hb3.
  repeat split.
  - by rewrite (assign_known _ _ _ _ Ha4).
  - intros Hne Heq. rewrite Heq in Hb3.
    apply Hne. exact (same_id_same_string r3 field a b _ Hinv3 Ha3 Hb3).
  - intros <-. by rewrite (assign_known _ _ _ _ Ha2).
  - by apply (inv_bound _ Hinv1) in Ha1 as [? _].
Qed.

Lemma assign_stable_and_injective_witness :
  ("owner" : string) ∈ TRANSITION_FIELDS
  ∧ let before := [OpNormalize (JObj [("owner", JStr "u0")])] in
    let between := [OpAssign "owner" "u3"] in
    let r0 := run_ops initial_registry before in
    let r1 := (assign r0 "owner" "u1").1 in
    let r2 := run_ops r1 between in
    let r3 := (assign r2 "owner" "u2").1 in
    let r4 := run_ops r3 [] in
    (assign r4 "owner" "u1").2 = (assign r0 "owner" "u1").2
    ∧ (("u1" : string) ≠ "u2" → (assign r2 "owner" "u2").2 ≠ (assign r0 "owner" "u1").2)
    ∧ (("u1" : string) = "u2" → (assign r2 "owner" "u2").2 = (assign r0 "owner" "u1").2)
    ∧ 1 ≤ (assign r0 "owner" "u1").2.
Proof.
  split.
  - refine (bool_decide_unpack _ _). vm_compute. exact I.
  - apply (assign_stable_and_injective "owner" "u1" "u2"
             [OpNormalize (JObj [("owner", JStr "u0")])] [OpAssign "owner" "u3"] []).
    refine (bool_decide_unpack _ _). vm_compute. exact I.
Defined.

(** ** The forward walk is idempotent *)

Lemma Forall_obj_set (P : string * json → Prop) (o : object) k v :
  Forall P o → P (k, v) → Forall P (obj_set o k v).
Proof.
  intros Ho Hkv. unfold obj_set. case_bool_decide; [ done | ].
  induction Ho as [ | [k' v'] o Hx Ho IH ]; simpl.
  - by constructor.
  - destruct (decide (k' = k)); by constructor.
Qed.

Lemma normalize_string_inv reg v s :
  (normalizeIntelxId reg v).2 = JStr s → v = JStr s.
Proof.
  destruct v; simpl; try done.
  - by destruct (scan_items normalizeIntelxId reg items).
  - by destruct (scan_entries normalizeIntelxId reg [] entries).
Qed.

Lemma normal_obj entries :
  normal (JObj entries) ↔ plain_keys (keys entries) ∧ Forall settled entries.
Proof. simpl. by rewrite (foldr_and_Forall settled). Qed.

Lemma normal_arr items : normal (JArr items) ↔ Forall normal items.
Proof. simpl. by rewrite foldr_and_Forall. Qed.

Lemma scan_items_normal l :
  Forall (λ x, ∀ reg, normal (normalizeIntelxId reg x).2) l →
  ∀ reg, Forall normal (scan_items normalizeIntelxId reg l).2.
Proof.
  induction 1 as [ | x l Hx _ IH ]; intros reg; simpl; [ constructor | ].
  specialize (Hx reg). destruct (normalizeIntelxId reg x) as [reg1 x'].
  specialize (IH reg1). destruct (scan_items normalizeIntelxId reg1 l).
  by constructor.
Qed.

Lemma scan_entries_normal l :
  Forall (λ kv, ∀ reg, normal (normalizeIntelxId reg kv.2).2) l →
  ∀ reg copy, plain_keys (keys copy) → Forall settled copy →
    plain_keys (keys (scan_entries normalizeIntelxId reg copy l).2)
    ∧ Forall settled (scan_entries normalizeIntelxId reg copy l).2.
Proof.
  induction 1 as [ | [key value] l Hx _ IH ]; intros reg copy Hnd Hall; simpl;
    [ done | ].
  simpl in Hx.
  assert (Hgen : ∀ reg1 value',
             (normalizeIntelxId reg value) = (reg1, value') →
             ¬ (is_transition_field key = true ∧ ∃ s, value = JStr s) →
             plain_keys (keys (scan_entries normalizeIntelxId reg1
                                 (obj_set copy key value') l).2)
             ∧ Forall settled (scan_entries normalizeIntelxId reg1
                                 (obj_set copy key value') l).2).
  { intros reg1 value' Heq Hno. apply IH; [ by apply plain_keys_obj_set | ].
    apply Forall_obj_set; [ done | ]. split; simpl.
    - specialize (Hx reg). by rewrite Heq in Hx.
    - intros [Ht [s Hs]]. apply Hno. split; [ done | ]. exists s.
      apply (normalize_string_inv reg). by rewrite Heq. }
  destruct (is_transition_field key) eqn:Hkey.
  - destruct value;
      try (destruct (normalizeIntelxId reg _) as [reg1 value'] eqn:Heq;
           apply (Hgen _ _ eq_refl); intros [_ [? ?]]; done).
    destruct (assign reg key s) as [reg1 id].
    apply IH; [ by apply plain_keys_obj_set | ].
    apply Forall_obj_set; [ done | ].
    split; simpl; [ done | intros [_ [? ?]]; done ].
  - destruct (normalizeIntelxId reg value) as [reg1 value'] eqn:Heq.
    assert (Hno : ¬ (false = true ∧ ∃ s, value = JStr s)) by (intros [? _]; done).
    destruct value; apply (Hgen _ _ eq_refl Hno).
Qed.

Lemma normalize_normal v : ∀ reg, normal (normalizeIntelxId reg v).2.
Proof.
  induction v as [ | b | n | s | items IH | entries IH ] using json_ind;
    intros reg; try exact I.
  - pose proof (scan_items_normal _ IH reg) as H. simpl.
    destruct (scan_items normalizeIntelxId reg items) as [reg' items'].
    by apply normal_arr.
  - assert (Hempty : plain_keys (keys [])).
    { split; [ apply NoDup_nil_2 | apply not_elem_of_nil ]. }
    destruct (scan_entries_normal _ IH reg [] Hempty (Forall_nil_2 _))
      as [Hnd Hall].
    simpl. destruct (scan_entries normalizeIntelxId reg [] entries) as [reg' copy].
    by apply (normal_obj copy).
Qed.

Lemma scan_items_fixed l :
  Forall (λ x, ∀ reg, normalizeIntelxId reg x = (reg, x)) l →
  ∀ reg, scan_items normalizeIntelxId reg l = (reg, l).
Proof.
  induction 1 as [ | x l Hx _ IH ]; intros reg; simpl; [ done | ].
  by rewrite Hx, IH.
Qed.

Lemma scan_entries_fixed l :
  Forall (λ kv, (∀ reg, normalizeIntelxId reg kv.2 = (reg, kv.2))
                ∧ ¬ (is_transition_field kv.1 = true ∧ ∃ s, kv.2 = JStr s)) l →
  ∀ reg copy, plain_keys (keys (copy ++ l)) →
    scan_entries normalizeIntelxId reg copy l = (reg, copy ++ l).
Proof.
  induction 1 as [ | [key value] l [Hfix Hno] _ IH ]; intros reg copy Hnd; simpl.
  - by rewrite app_nil_r.
  - simpl in Hfix, Hno.
    destruct (plain_keys_app_cons _ _ _ _ Hnd) as (Hproto & Hfresh & Hnd').
    assert (Hnext : scan_entries normalizeIntelxId reg (obj_set copy key value) l
                    = (reg, copy ++ (key, value) :: l)).
    { rewrite keys_obj_set_fresh by done. rewrite IH by done.
      by rewrite <- app_assoc. }
    destruct (is_transition_field key) eqn:Hkey; destruct value;
      try (rewrite Hfix; exact Hnext).
    exfalso. apply Hno. eauto.
Qed.

Lemma normal_fixed v : normal v → ∀ reg, normalizeIntelxId reg v = (reg, v).
Proof.
  induction v as [ | b | n | s | items IH | entries IH ] using json_ind;
    intros Hn reg; try done.
  - apply normal_arr in Hn. simpl. rewrite scan_items_fixed; [ done | ].
    apply Forall_forall. intros x Hx.
    rewrite Forall_forall in IH, Hn. by apply IH, Hn.
  - apply normal_obj in Hn as [Hnd Hall]. simpl.
    rewrite scan_entries_fixed; [ done | | done ].
    apply Forall_forall. intros kv Hkv.
    rewrite Forall_forall in IH, Hall. destruct (Hall _ Hkv) as [Hv Hno].
    split; [ by apply IH | done ].
Qed.

(** C10. The pseudonymizing walk is idempotent: run on its own output, in the
    registry the first run left, it returns that output and leaves the
    registry as it is.  A scalar such as a string is returned unchanged, and
    the second walk the identity handler performs after
    [normalizeIdentityRecords] changes nothing. *)
Theorem normalizeIntelxId_idempotent (reg : Registry) (v : json) :
  normalizeIntelxId (normalizeIntelxId reg v).1 (normalizeIntelxId reg v).2
  = normalizeIntelxId reg v
  ∧ (∀ s, normalizeIntelxId reg (JStr s) = (reg, JStr s))
  ∧ (∀ allRecords,
       normalizeIntelxId (normalizeIdentityRecords reg allRecords).1
                         (normalizeIdentityRecords reg allRecords).2
       = normalizeIdentityRecords reg allRecords).
Proof.
  assert (Hidem : ∀ w, normalizeIntelxId (normalizeIntelxId reg w).1
                         (normalizeIntelxId reg w).2 = normalizeIntelxId reg w).
  { intros w. rewrite (normal_fixed _ (normalize_normal w reg)).
    by destruct (normalizeIntelxId reg w). }
  split; [ apply Hidem | split; [ done | ] ].
  intros allRecords. apply Hidem.
Qed.

(** ** On a well-formed object the two walks act property by property *)

Lemma scan_entries_step reg copy key value rest :
  scan_entries normalizeIntelxId reg copy ((key, value) :: rest)
  = scan_entries normalizeIntelxId (entry_step reg key value).1
      (obj_set copy key (entry_step reg key value).2) rest.
Proof.
  simpl. unfold entry_step.
  destruct (is_transition_field key), value as [ | b | n | s | items | entries ];
    simpl;
    try (by destruct (scan_items normalizeIntelxId reg items));
    try (by destruct (scan_entries normalizeIntelxId reg [] entries));
    try done.
  by destruct (assign reg key s).
Qed.

Lemma keys_entries_map l : ∀ reg, keys (entries_map reg l).2 = keys l.
Proof.
  induction l as [ | [key value] l IH ]; intros reg; simpl; [ done | ].
  destruct (entry_step reg key value) as [reg1 value'].
  specialize (IH reg1). destruct (entries_map reg1 l). simpl in *. by rewrite IH.
Qed.

Lemma scan_entries_map l : ∀ reg copy,
  plain_keys (keys (copy ++ l)) →
  scan_entries normalizeIntelxId reg copy l
  = ((entries_map reg l).1, copy ++ (entries_map reg l).2).
Proof.
  induction l as [ | [key value] l IH ]; intros reg copy Hnd.
  - simpl. by rewrite app_nil_r.
  - rewrite scan_entries_step. simpl.
    destruct (entry_step reg key value) as [reg1 value']. simpl.
    destruct (plain_keys_app_cons _ _ _ _ Hnd) as (Hproto & Hfresh & Hnd').
    rewrite keys_obj_set_fresh by done.
    rewrite IH.
    + destruct (entries_map reg1 l). simpl. by rewrite <- app_assoc.
    + unfold keys in *. rewrite !map_app in *. simpl in *. done.
Qed.

Lemma entry_step_keeps reg key value :
  reg_inv reg →
  reg_inv (entry_step reg key value).1 ∧ reg_le reg (entry_step reg key value).1.
Proof.
  intros Hinv.
  exact (entry_keeps normalizeIntelxId reg key value (normalize_keeps value) Hinv).
Qed.

Lemma entries_map_keeps l : ∀ reg,
  reg_inv reg → reg_inv (entries_map reg l).1 ∧ reg_le reg (entries_map reg l).1.
Proof.
  induction l as [ | [key value] l IH ]; intros reg Hinv; simpl.
  - split; [ done | apply reg_le_refl ].
  - destruct (entry_step_keeps reg key value Hinv) as [Hinv1 Hle1].
    destruct (entry_step reg key value) as [reg1 value']. simpl in *.
    destruct (IH reg1 Hinv1) as [Hinv2 Hle2].
    destruct (entries_map reg1 l). simpl in *.
    split; [ done | by eapply reg_le_trans ].
Qed.

Lemma entries_map_get l : ∀ reg k v,
  reg_inv reg → obj_get l k = Some v →
  ∃ r1, reg_inv r1
        ∧ reg_le (entry_step r1 k v).1 (entries_map reg l).1
        ∧ obj_get (entries_map reg l).2 k = Some (entry_step r1 k v).2.
Proof.
  induction l as [ | [key value] l IH ]; intros reg k v Hinv Hget; simpl in *;
    [ done | ].
  destruct (entry_step_keeps reg key value Hinv) as [Hinv1 Hle1].
  destruct (decide (key = k)) as [ -> | Hne ].
  - injection Hget as ->. exists reg.
    destruct (entry_step reg k v) as [reg1 value']. simpl in *.
    destruct (entries_map_keeps l reg1 Hinv1) as [_ Hle2].
    destruct (entries_map reg1 l). simpl in *.
    rewrite decide_True by done. done.
  - destruct (entry_step reg key value) as [reg1 value']. simpl in *.
    destruct (IH reg1 k v Hinv1 Hget) as (r1 & Hr1 & Hle & Hk).
    exists r1. destruct (entries_map reg1 l). simpl in *.
    rewrite decide_False by done. done.
Qed.

Lemma scan_items_get l : ∀ reg i v,
  reg_inv reg → l !! i = Some v →
  ∃ r1, reg_inv r1
        ∧ reg_le (normalizeIntelxId r1 v).1 (scan_items normalizeIntelxId reg l).1
        ∧ (scan_items normalizeIntelxId reg l).2 !! i
          = Some (normalizeIntelxId r1 v).2.
Proof.
  induction l as [ | x l IH ]; intros reg i v Hinv Hget; [ done | ].
  simpl. destruct (normalize_keeps x reg Hinv) as [Hinv1 Hle1].
  destruct i as [ | i ]; simpl in Hget.
  - injection Hget as ->. exists reg.
    destruct (normalizeIntelxId reg v) as [reg1 v']. simpl in *.
    assert (Hrest : reg_le reg1 (scan_items normalizeIntelxId reg1 l).1).
    { apply scan_items_keeps; [ | done ].
      apply Forall_forall. intros ? _. apply normalize_keeps. }
    destruct (scan_items normalizeIntelxId reg1 l). simpl in *. done.
  - destruct (normalizeIntelxId reg x) as [reg1 x']. simpl in *.
    destruct (IH reg1 i v Hinv1 Hget) as (r1 & Hr1 & Hle & Hi).
    exists r1. destruct (scan_items normalizeIntelxId reg1 l). simpl in *. done.
Qed.

Lemma unscan_entries_map reg l : ∀ copy,
  plain_keys (keys (copy ++ l)) →
  unscan_entries reg (denormalizeIntelxId reg) copy l
  = copy ++ map (λ kv, (kv.1, entry_back reg kv.1 kv.2)) l.
Proof.
  induction l as [ | [key value] l IH ]; intros copy Hnd.
  - simpl. by rewrite app_nil_r.
  - destruct (plain_keys_app_cons _ _ _ _ Hnd) as (Hproto & Hfresh & Hnd').
    assert (Hstep : unscan_entries reg (denormalizeIntelxId reg) copy
                      ((key, value) :: l)
                    = unscan_entries reg (denormalizeIntelxId reg)
                        (obj_set copy key (entry_back reg key value)) l).
    { simpl. unfold entry_back.
      by destruct (is_transition_field key), value. }
    rewrite Hstep, keys_obj_set_fresh by done. rewrite IH.
    + by rewrite <- app_assoc.
    + unfold keys in *. rewrite !map_app in *. simpl in *. done.
Qed.

Lemma obj_get_map (g : string → json → json) (l : object) k :
  obj_get (map (λ kv, (kv.1, g kv.1 kv.2)) l) k = g k <$> obj_get l k.
Proof.
  induction l as [ | [key value] l IH ]; simpl; [ done | ].
  destruct (decide (key = k)) as [ -> | Hne ]; [ done | apply IH ].
Qed.

(** ** Round trip *)

Lemma wf_obj entries :
  wf_json (JObj entries)
  ↔ plain_keys (keys entries) ∧ Forall (λ kv, wf_json kv.2) entries.
Proof. simpl. by rewrite (foldr_and_Forall (λ kv, wf_json kv.2)). Qed.

Lemma wf_arr items : wf_json (JArr items) ↔ Forall wf_json items.
Proof. simpl. by rewrite foldr_and_Forall. Qed.

Lemma obj_get_elem (l : object) k v : obj_get l k = Some v → (k, v) ∈ l.
Proof.
  induction l as [ | [key value] l IH ]; simpl; [ done | ].
  destruct (decide (key = k)) as [ -> | Hne ].
  - intros [= ->]. apply elem_of_cons. by left.
  - intros H. apply elem_of_cons. right. by apply IH.
Qed.

Lemma get_path_container q st x y :
  get_path (q ++ [st]) x = Some y → container x.
Proof. destruct q as [ | [k | i] q ], st as [k' | i'], x; simpl; done. Qed.

Lemma entry_step_container reg k x :
  container x → entry_step reg k x = normalizeIntelxId reg x.
Proof. unfold entry_step. by destruct (is_transition_field k), x. Qed.

Lemma entry_back_container R reg k x :
  container x →
  entry_back R k (normalizeIntelxId reg x).2
  = denormalizeIntelxId R (normalizeIntelxId reg x).2.
Proof.
  unfold entry_back. destruct (is_transition_field k), x; simpl; try done.
  - by destruct (scan_items normalizeIntelxId reg items).
  - by destruct (scan_entries normalizeIntelxId reg [] entries).
Qed.

Lemma normalize_obj reg entries :
  plain_keys (keys entries) →
  normalizeIntelxId reg (JObj entries)
  = ((entries_map reg entries).1, JObj (entries_map reg entries).2).
Proof.
  intros Hnd. simpl. by rewrite (scan_entries_map entries reg []).
Qed.

Lemma denormalize_obj R copy :
  plain_keys (keys copy) →
  denormalizeIntelxId R (JObj copy)
  = JObj (map (λ kv, (kv.1, entry_back R kv.1 kv.2)) copy).
Proof. intros Hnd. simpl. by rewrite (unscan_entries_map R copy []). Qed.

Lemma restore_path k s p :
  is_transition_field k = true →
  ∀ tree reg R,
    reg_inv reg → wf_json tree → reg_inv R →
    reg_le (normalizeIntelxId reg tree).1 R →
    get_path (p ++ [Key k]) tree = Some (JStr s) →
    get_path (p ++ [Key k]) (denormalizeIntelxId R (normalizeIntelxId reg tree).2)
    = Some (JStr s).
Proof.
  intros Hk. induction p as [ | st p IH ]; intros tree reg R Hinv Hwf HR Hle Hget.
  - simpl in Hget. destruct tree as [ | | | | | entries ]; try done.
    destruct (obj_get entries k) as [x | ] eqn:Hx; [ | done ].
    injection Hget as ->.
    apply wf_obj in Hwf as [Hnd _].
    rewrite normalize_obj in Hle |- * by done. cbn [fst snd] in Hle |- *.
    rewrite denormalize_obj by (by rewrite keys_entries_map).
    simpl. rewrite obj_get_map.
    destruct (entries_map_get entries reg k (JStr s) Hinv Hx) as (r1 & Hr1 & Hle1 & ->).
    simpl. unfold entry_step in *. rewrite Hk in *.
    pose proof (assign_lookup r1 k s) as Hs.
    destruct (assign r1 k s) as [r1' id]. simpl in *.
    unfold entry_back. rewrite Hk.
    by rewrite (inv_fwd_rev _ HR _ _ _ (Hle _ _ _ (Hle1 _ _ _ Hs))).
  - destruct st as [k0 | i]; simpl in Hget.
    + destruct tree as [ | | | | | entries ]; try done.
      destruct (obj_get entries k0) as [x | ] eqn:Hx; [ | done ].
      apply wf_obj in Hwf as [Hnd Hall].
      assert (Hwfx : wf_json x).
      { rewrite Forall_forall in Hall. exact (Hall _ (obj_get_elem _ _ _ Hx)). }
      pose proof (get_path_container _ _ _ _ Hget) as Hc.
      rewrite normalize_obj in Hle |- * by done. cbn [fst snd] in Hle |- *.
      rewrite denormalize_obj by (by rewrite keys_entries_map).
      simpl. rewrite obj_get_map.
      destruct (entries_map_get entries reg k0 x Hinv Hx) as (r1 & Hr1 & Hle1 & ->).
      simpl. rewrite entry_step_container in Hle1 |- * by done.
      rewrite entry_back_container by done.
      apply IH; try done. by eapply reg_le_trans.
    + destruct tree as [ | | | | items | ]; try done.
      destruct (items !! i) as [x | ] eqn:Hx; [ | done ].
      apply wf_arr in Hwf.
      assert (Hwfx : wf_json x).
      { rewrite Forall_forall in Hwf. apply Hwf. by eapply list_elem_of_lookup_2. }
      destruct (scan_items_get items reg i x Hinv Hx) as (r1 & Hr1 & Hle1 & Hi).
      simpl in Hle |- *.
      destruct (scan_items normalizeIntelxId reg items) as [reg' items'].
      simpl in *. rewrite list_lookup_fmap, Hi. simpl.
      apply IH; try done. by eapply reg_le_trans.
Qed.

(** X19. In a registry reached during this process run, normalizing a tree
    whose objects have ordinary data properties (distinct names, none of them
    [__proto__]) and denormalizing the result (at once or after further
    registry operations) restores every pseudonymized field: wherever the
    tree holds a raw string under a transition field name, the round trip
    holds that same string at the same place. *)
Theorem denormalize_normalize_restores
    (before later : list RegistryOp) (tree : json)
    (p : list step) (k s : string) :
  wf_json tree →
  k ∈ TRANSITION_FIELDS →
  get_path (p ++ [Key k]) tree = Some (JStr s) →
  let reg := run_ops initial_registry before in
  let normalized := normalizeIntelxId reg tree in
  get_path (p ++ [Key k])
    (denormalizeIntelxId (run_ops normalized.1 later) normalized.2)
  = Some (JStr s).
Proof.
  intros Hwf Hk Hget reg normalized.
  destruct (run_ops_keeps before _ initial_registry_inv) as [Hinv _].
  pose proof (normalize_inv reg tree Hinv) as Hinv1.
  destruct (run_ops_keeps later _ Hinv1) as [Hinv2 Hle].
  apply restore_path; try done.
  unfold is_transition_field. by apply bool_decide_eq_true_2.
Qed.

Lemma denormalize_normalize_restores_witness :
  let tree :=
    JObj [("records",
           JArr [JObj [("system_id", JStr "aa"); ("target", JNum 1)];
                 JObj [("name", JStr "n"); ("system_id", JStr "bb")]])] in
  let p := [Key "records"; Idx 1%nat] in
  wf_json tree
  ∧ ("system_id" : string) ∈ TRANSITION_FIELDS
  ∧ get_path (p ++ [Key "system_id"]) tree = Some (JStr "bb")
  ∧ get_path (p ++ [Key "system_id"])
      (denormalizeIntelxId
         (run_ops (normalizeIntelxId (run_ops initial_registry []) tree).1
            [OpAssign "system_id" "cc"])
         (normalizeIntelxId (run_ops initial_registry []) tree).2)
    = Some (JStr "bb").
Proof.
  assert (Hwf : wf_json
    (JObj [("records",
           JArr [JObj [("system_id", JStr "aa"); ("target", JNum 1)];
                 JObj [("name", JStr "n"); ("system_id", JStr "bb")]])])).
  { simpl. repeat split; apply (bool_decide_unpack _); vm_compute; exact I. }
  assert (Hk : ("system_id" : string) ∈ TRANSITION_FIELDS).
  { refine (bool_decide_unpack _ _). vm_compute. exact I. }
  split; [ exact Hwf | split; [ exact Hk | split; [ reflexivity | ] ] ].
  exact (denormalize_normalize_restores [] [OpAssign "system_id" "cc"] _
           [Key "records"; Idx 1%nat] "system_id" "bb" Hwf Hk eq_refl).
Defined.

(** C5. The round trip does not restore every tree.  An object decoded from
    JSON can have an own property named [__proto__]; the forward walk copies
    it with [copy[key] = ...], which sets the prototype of the copy instead of
    creating a property.  For the tree [{"__proto__": {"owner": "o-raw"}}]
    the walk registers "o-raw" (it receives the identifier 1 and resolves
    back), but its output is the empty object, and so is the output of the
    reverse walk: the field under [__proto__], [owner] is gone. *)
Theorem roundtrip_loses_proto_property :
  let tree := JObj [("__proto__", JObj [("owner", JStr "o-raw")])] in
  let normalized := normalizeIntelxId initial_registry tree in
  get_path [Key "__proto__"; Key "owner"] tree = Some (JStr "o-raw")
  ∧ getNormalizedId normalized.1 "owner" "o-raw" = Some 1
  ∧ getOriginalUuid normalized.1 "owner" 1 = Some "o-raw"
  ∧ normalized.2 = JObj []
  ∧ denormalizeIntelxId normalized.1 normalized.2 = JObj []
  ∧ get_path [Key "__proto__"; Key "owner"]
      (denormalizeIntelxId normalized.1 normalized.2) = None.
Proof.
  assert (Hout : (normalizeIntelxId initial_registry
                    (JObj [("__proto__", JObj [("owner", JStr "o-raw")])])).2
                 = JObj []) by (vm_compute; reflexivity).
  cbv zeta. rewrite Hout.
  split; [ reflexivity | ].
  split; [ vm_compute; reflexivity | ].
  split; [ vm_compute; reflexivity | ].
  split; [ reflexivity | ].
  split; reflexivity.
Qed.

(** ** The identity normalizer *)

Lemma merge_step_new (m : merged) (r : IdentityNormalizedRecord) :
  inherited_name (storage_id r) = false →
  merged_get m (storage_id r) = None →
  m = [] →
  merge_step m r = [(storage_id r, with_line r (LF +:+ line r))].
Proof.
  intros Hinh Hget ->. unfold merge_step. rewrite Hinh. simpl.
  by decide_same.
Qed.

Lemma merge_step_known (k : string) (g r : IdentityNormalizedRecord) :
  inherited_name k = false → storage_id r = k →
  merge_step [(k, g)] r = [(k, with_line g (line g +:+ LF +:+ line r))].
Proof.
  intros Hinh <-. unfold merge_step. rewrite Hinh. simpl.
  by decide_same.
Qed.

Lemma Object_values_singleton (k : string) (g : IdentityNormalizedRecord) :
  Object_values [(k, g)] = [g].
Proof.
  unfold Object_values. simpl. by destruct (array_index k).
Qed.

(** X20. Two raw records with the same storage identifier (one that is not a
    property name inherited from [Object.prototype]) are merged into exactly
    one record, which carries the first record's metadata and whose line,
    before trimming and truncation, is a line feed, the first line, a line
    feed and the second line: every line goes through the same join. *)
Theorem identity_merge_same_storage_id (r1 r2 : IdentityRecord) :
  storageid (item r1) = storageid (item r2) →
  inherited_name (storageid (item r1)) = false →
  mergeByStorageId (map project_identity [r1; r2])
  = [(storageid (item r1),
      with_line (project_identity r1) (LF +:+ linea r1 +:+ LF +:+ linea r2))]
  ∧ mergeAndTruncate [r1; r2]
    = [with_line (project_identity r1)
         (render_line (LF +:+ linea r1 +:+ LF +:+ linea r2))].
Proof.
  intros Hsame Hinh.
  assert (Hmerged : mergeByStorageId (map project_identity [r1; r2])
    = [(storageid (item r1),
        with_line (project_identity r1) (LF +:+ linea r1 +:+ LF +:+ linea r2))]).
  { unfold mergeByStorageId. simpl.
    rewrite (merge_step_new [] (project_identity r1)); [ | done | done | done ].
    rewrite (merge_step_known (storageid (item r1))); [ done | done | ].
    simpl. by symmetry. }
  split; [ exact Hmerged | ].
  unfold mergeAndTruncate. rewrite Hmerged, Object_values_singleton. done.
Qed.

Lemma identity_merge_same_storage_id_witness :
  let item1 := {| name := "a.txt"; date := "2024-01-01"; bucket := "leaks";
                  storageid := "S1"; systemid := "X1" |} in
  let item2 := {| name := "b.txt"; date := "2024-02-02"; bucket := "pastes";
                  storageid := "S1"; systemid := "X2" |} in
  let r1 := {| item := item1; linea := "foo" |} in
  let r2 := {| item := item2; linea := "bar" |} in
  storageid (item r1) = storageid (item r2)
  ∧ inherited_name (storageid (item r1)) = false
  ∧ mergeByStorageId (map project_identity [r1; r2])
    = [("S1", {| line := LF +:+ "foo" +:+ LF +:+ "bar"; system_id := "X1";
                 storage_id := "S1"; nbucket := "leaks"; filename := "a.txt";
                 ndate := "2024-01-01" |})]
  ∧ mergeAndTruncate [r1; r2]
    = [{| line := "foo" +:+ LF +:+ "bar"; system_id := "X1";
          storage_id := "S1"; nbucket := "leaks"; filename := "a.txt";
          ndate := "2024-01-01" |}].
Proof.
  split; [ reflexivity | split; [ reflexivity | ] ].
  exact (identity_merge_same_storage_id
           {| item := {| name := "a.txt"; date := "2024-01-01"; bucket := "leaks";
                         storageid := "S1"; systemid := "X1" |};
              linea := "foo" |}
           {| item := {| name := "b.txt"; date := "2024-02-02"; bucket := "pastes";
                         storageid := "S1"; systemid := "X2" |};
              linea := "bar" |}
           eq_refl eq_refl).
Defined.

(** C7. Not every storage identifier is merged.  [mergedByStorageId] is a
    plain object read with [mergedByStorageId[id]], which for a name inherited
    from [Object.prototype] is truthy although the object has no such
    property: for two records that share the storage identifier "constructor"
    (lines "foo" and "bar") no group is created, the appended lines land on
    the inherited value, and the normalizer returns no record at all. *)
Theorem merge_drops_inherited_storage_id :
  let item1 := {| name := "a.txt"; date := "2024-01-01"; bucket := "leaks";
                  storageid := "constructor"; systemid := "X1" |} in
  let item2 := {| name := "b.txt"; date := "2024-02-02"; bucket := "pastes";
                  storageid := "constructor"; systemid := "X2" |} in
  let r1 := {| item := item1; linea := "foo" |} in
  let r2 := {| item := item2; linea := "bar" |} in
  storageid (item r1) = storageid (item r2)
  ∧ mergeByStorageId (map project_identity [r1; r2]) = []
  ∧ mergeAndTruncate [r1; r2] = []
  ∧ ∀ reg, normalizeIdentityRecords reg [r1; r2] = (reg, JArr []).
Proof.
  split; [ reflexivity | ].
  split; [ reflexivity | ].
  split; [ reflexivity | ].
  intros reg. reflexivity.
Qed.


Lemma substring_prefix_length (s : string) :
  ∀ n, (n ≤ String.length s)%nat → String.length (String.substring 0 n s) = n.
Proof.
  induction s as [ | c s IH ]; intros [ | n ] Hn; simpl in *; try done; try lia.
  rewrite IH; [ done | lia ].
Qed.





(** ** The polling loops *)

Lemma loop_log_step w c w' tail :
  is_poll c = true → loop_log (logged w c) w' tail → loop_log w w' tail.
Proof.
  intros Hc [Hreg (polls & Hpolls & Hcalls)]. split; [ done | ].
  exists (c :: polls). split; [ by constructor | ].
  rewrite Hcalls. simpl. by rewrite <- app_assoc.
Qed.

Lemma loop_log_last w c (b : bool) (t : Call) :
  is_poll c = true →
  loop_log w (if b then logged (logged w c) t else logged w c)
    (if b then [t] else []).
Proof.
  intros Hc. split; [ by destruct b | ].
  exists [c]. split; [ by repeat constructor | ].
  destruct b; simpl; [ by rewrite <- app_assoc | done ].
Qed.

Lemma loop_log_terminate w w' (b : bool) (t : Call) :
  is_terminate t = true →
  loop_log w w' (if b then [t] else []) →
  ∃ new, calls w' = calls w ++ new ∧ (terminate_issued new ↔ b = true).
Proof.
  intros Ht [_ (polls & Hpolls & Hcalls)].
  exists (polls ++ (if b then [t] else [])). split; [ done | ].
  split.
  - intros (path & id & Hin). destruct b; [ done | ].
    rewrite app_nil_r in Hin. rewrite Forall_forall in Hpolls.
    by apply Hpolls in Hin.
  - intros ->. destruct t as [ | | path id | ]; try done.
    exists path, id. apply elem_of_app. right. apply list_elem_of_singleton. done.
Qed.

Section ClientFacts.

Variables SUCCESS NO_MORE_RESULTS NOT_FOUND : Z.
Variables Rec Sel : Type.
Variable submit_response : Http SearchResponse.
Variable poll_response : nat → string → Z → Http (ResultResponse Rec).
Variable phonebook_response : nat → string → Z → Http (PhonebookResultResponse Sel).

Local Abbreviation loopS :=
  (search_loop SUCCESS NO_MORE_RESULTS NOT_FOUND Rec poll_response).
Local Abbreviation loopP :=
  (phonebook_loop NO_MORE_RESULTS NOT_FOUND Sel phonebook_response).
Local Abbreviation loopI := (identity_loop Rec poll_response).
Local Abbreviation loopE := (export_loop Rec poll_response).

Lemma search_loop_unfold fuel round id acc budget w :
  loopS (S fuel) round id acc budget w =
  let w1 := logged w (Poll "/intelligent/search/result" id budget) in
  let response := poll_response round id budget in
  if negb (ok response) then (Threw (ApiError (code response)), w1)
  else
    let results := body response in
    let acc' := match records results with Some rs => acc ++ rs | None => acc end in
    let budget' := match records results with
                   | Some rs => budget - count rs
                   | None => budget
                   end in
    if (status results =? SUCCESS)
       && match records results with Some rs => count rs =? 0 | None => true end
    then loopS fuel (S round) id acc' budget' w1
    else if (status results =? NO_MORE_RESULTS) || (status results =? NOT_FOUND)
            || (budget' <=? 0)
    then (Returned {| accumulated := acc'; remainingBudget := budget';
                      lastStatus := status results |},
          if budget' <=? 0
          then logged w1 (Terminate "/intelligent/search/terminate" id)
          else w1)
    else loopS fuel (S round) id acc' budget' w1.
Proof.
  destruct (poll_response round id budget) as [[ | ] c [st [rs | ]]] eqn:Hresp;
    cbn [search_loop]; unfold bind, getSearchResults, terminateSearch, fetch,
      ret, throw, logged; rewrite Hresp; cbn; try reflexivity.
  - destruct (st =? SUCCESS), (count rs =? 0), (st =? NO_MORE_RESULTS),
      (st =? NOT_FOUND), (budget - count rs <=? 0); reflexivity.
  - destruct (st =? SUCCESS), (st =? NO_MORE_RESULTS),
      (st =? NOT_FOUND), (budget <=? 0); reflexivity.
Qed.

Lemma phonebook_loop_unfold fuel round id acc budget w :
  loopP (S fuel) round id acc budget w =
  let w1 := logged w (Poll "/phonebook/search/result" id budget) in
  let response := phonebook_response round id budget in
  if negb (ok response) then (Threw (ApiError (code response)), w1)
  else
    let results := body response in
    let acc' := acc ++ [results] in
    let budget' := budget - count (selectors results) in
    if (pb_status results =? NO_MORE_RESULTS) || (pb_status results =? NOT_FOUND)
       || (budget' <=? 0)
    then (Returned {| accumulated := acc'; remainingBudget := budget';
                      lastStatus := pb_status results |},
          if budget' <=? 0
          then logged w1 (Terminate "/intelligent/search/terminate" id)
          else w1)
    else loopP fuel (S round) id acc' budget' w1.
Proof.
  destruct (phonebook_response round id budget) as [[ | ] c [st sels]] eqn:Hresp;
    cbn [phonebook_loop]; unfold bind, getPhonebookResults, terminateSearch,
      fetch, ret, throw, logged; rewrite Hresp; cbn; try reflexivity.
  destruct (st =? NO_MORE_RESULTS), (st =? NOT_FOUND),
    (budget - count sels <=? 0); reflexivity.
Qed.

Lemma identity_loop_unfold fuel round id acc budget w :
  loopI (S fuel) round id acc budget w =
  let w1 := logged w (Poll "/live/search/result" id budget) in
  let response := poll_response round id budget in
  if negb (ok response) then (Threw (ApiError (code response)), w1)
  else
    let results := body response in
    let acc' := match status results =? 0, records results with
                | true, Some rs => acc ++ rs
                | _, _ => acc
                end in
    let budget' := match status results =? 0, records results with
                   | true, Some rs => budget - count rs
                   | _, _ => budget
                   end in
    if (status results =? 2) || (budget' <=? 0)
    then (Returned {| accumulated := match records results with
                                     | Some rs => acc' ++ rs
                                     | None => acc'
                                     end;
                      remainingBudget := budget';
                      lastStatus := status results |},
          if budget' <=? 0
          then logged w1 (Terminate "/live/search/terminate" id)
          else w1)
    else if status results =? 3
    then (Returned {| accumulated := acc'; remainingBudget := budget';
                      lastStatus := status results |},
          logged w1 (Terminate "/live/search/terminate" id))
    else loopI fuel (S round) id acc' budget' w1.
Proof.
  destruct (poll_response round id budget) as [[ | ] c [st [rs | ]]] eqn:Hresp;
    cbn [identity_loop]; unfold bind, identity_getSearchResults,
      identity_terminateSearch, fetch, ret, throw, logged; rewrite Hresp; cbn;
    try reflexivity.
  - destruct (st =? 0), (st =? 2), (st =? 3), (budget - count rs <=? 0),
      (budget <=? 0); reflexivity.
  - destruct (st =? 0), (st =? 2), (st =? 3), (budget <=? 0); reflexivity.
Qed.

Lemma export_loop_unfold fuel round id acc budget w :
  loopE (S fuel) round id acc budget w =
  let w1 := logged w (Poll "/live/search/result" id budget) in
  let response := poll_response round id budget in
  if negb (ok response) then (Threw (ApiError (code response)), w1)
  else
    let results := body response in
    let acc' := match status results =? 0, records results with
                | true, Some rs => acc ++ rs
                | _, _ => acc
                end in
    let budget' := match status results =? 0, records results with
                   | true, Some rs => budget - count rs
                   | _, _ => budget
                   end in
    if (status results =? 2) || (budget' <=? 0)
    then (Returned {| accumulated := acc'; remainingBudget := budget';
                      lastStatus := status results |},
          if budget' <=? 0
          then logged w1 (Terminate "/live/search/terminate" id)
          else w1)
    else loopE fuel (S round) id acc' budget' w1.
Proof.
  destruct (poll_response round id budget) as [[ | ] c [st [rs | ]]] eqn:Hresp;
    cbn [export_loop]; unfold bind, identity_getSearchResults,
      identity_terminateSearch, fetch, ret, throw, logged; rewrite Hresp; cbn;
    try reflexivity.
  - destruct (st =? 0), (st =? 2), (budget - count rs <=? 0),
      (budget <=? 0); reflexivity.
  - destruct (st =? 0), (st =? 2), (budget <=? 0); reflexivity.
Qed.

Lemma search_loop_log fuel : ∀ round id acc budget w s w',
  loopS fuel round id acc budget w = (Returned s, w') →
  loop_log w w'
    (if remainingBudget s <=? 0
     then [Terminate "/intelligent/search/terminate" id] else []).
Proof.
  induction fuel as [ | fuel IH ]; intros round id acc budget w s w' Hrun;
    [ done | ].
  rewrite search_loop_unfold in Hrun. cbv zeta in Hrun.
  destruct (negb (ok (poll_response round id budget))); [ done | ].
  destruct (_ && _).
  { eapply loop_log_step; [ | by eapply IH ]. done. }
  destruct (_ || _).
  - injection Hrun as <- <-. cbn [remainingBudget]. by apply loop_log_last.
  - eapply loop_log_step; [ | by eapply IH ]. done.
Qed.

Lemma phonebook_loop_log fuel : ∀ round id acc budget w s w',
  loopP fuel round id acc budget w = (Returned s, w') →
  loop_log w w'
    (if remainingBudget s <=? 0
     then [Terminate "/intelligent/search/terminate" id] else []).
Proof.
  induction fuel as [ | fuel IH ]; intros round id acc budget w s w' Hrun;
    [ done | ].
  rewrite phonebook_loop_unfold in Hrun. cbv zeta in Hrun.
  destruct (negb (ok (phonebook_response round id budget))); [ done | ].
  destruct (_ || _).
  - injection Hrun as <- <-. cbn [remainingBudget]. by apply loop_log_last.
  - eapply loop_log_step; [ | by eapply IH ]. done.
Qed.

Lemma export_loop_log fuel : ∀ round id acc budget w s w',
  loopE fuel round id acc budget w = (Returned s, w') →
  loop_log w w'
    (if remainingBudget s <=? 0
     then [Terminate "/live/search/terminate" id] else []).
Proof.
  induction fuel as [ | fuel IH ]; intros round id acc budget w s w' Hrun;
    [ done | ].
  rewrite export_loop_unfold in Hrun. cbv zeta in Hrun.
  destruct (negb (ok (poll_response round id budget))); [ done | ].
  destruct (_ || _).
  - injection Hrun as <- <-. cbn [remainingBudget]. by apply loop_log_last.
  - eapply loop_log_step; [ | by eapply IH ]. done.
Qed.

Lemma identity_loop_log fuel : ∀ round id acc budget w s w',
  loopI fuel round id acc budget w = (Returned s, w') →
  loop_log w w'
    (if (remainingBudget s <=? 0) || (lastStatus s =? 3)
     then [Terminate "/live/search/terminate" id] else []).
Proof.
  induction fuel as [ | fuel IH ]; intros round id acc budget w s w' Hrun;
    [ done | ].
  rewrite identity_loop_unfold in Hrun. cbv zeta in Hrun.
  destruct (negb (ok (poll_response round id budget))); [ done | ].
  destruct (_ || _) eqn:Hfirst.
  - injection Hrun as <- <-. cbn [remainingBudget lastStatus].
    apply orb_true_iff in Hfirst as [H2 | Hb].
    + apply Z.eqb_eq in H2. rewrite H2. cbn. rewrite orb_false_r.
      by apply loop_log_last.
    + rewrite Hb. cbn. by apply (loop_log_last _ _ true).
  - apply orb_false_iff in Hfirst as [_ Hb].
    destruct (status _ =? 3) eqn:H3.
    + injection Hrun as <- <-. cbn [remainingBudget lastStatus].
      rewrite H3, orb_true_r. by apply (loop_log_last _ _ true).
    + eapply loop_log_step; [ | by eapply IH ]. done.
Qed.

(** C2. Whenever a polling loop finishes, the requests it has added to the
    log contain a terminate call exactly if the remaining budget is zero or
    negative at that point, whatever the status of the last poll response;
    this holds for full-text search, phonebook search and account export.
    The identity search loop issues a terminate call in that case and also
    when the last response carries status 3. *)
Theorem terminate_iff_budget_exhausted :
  (∀ fuel round id acc budget w s w',
     loopS fuel round id acc budget w = (Returned s, w') →
     ∃ new, calls w' = calls w ++ new
            ∧ (terminate_issued new ↔ remainingBudget s ≤ 0))
  ∧ (∀ fuel round id acc budget w s w',
       loopP fuel round id acc budget w = (Returned s, w') →
       ∃ new, calls w' = calls w ++ new
              ∧ (terminate_issued new ↔ remainingBudget s ≤ 0))
  ∧ (∀ fuel round id acc budget w s w',
       loopE fuel round id acc budget w = (Returned s, w') →
       ∃ new, calls w' = calls w ++ new
              ∧ (terminate_issued new ↔ remainingBudget s ≤ 0))
  ∧ (∀ fuel round id acc budget w s w',
       loopI fuel round id acc budget w = (Returned s, w') →
       ∃ new, calls w' = calls w ++ new
              ∧ (terminate_issued new
                 ↔ remainingBudget s ≤ 0 ∨ lastStatus s = 3)).
Proof.
  repeat split; intros fuel round id acc budget w s w' Hrun.
  - apply search_loop_log, loop_log_terminate in Hrun as (new & Hnew & Hiff);
      [ | done ].
    exists new. split; [ done | ]. by rewrite Hiff, Z.leb_le.
  - apply phonebook_loop_log, loop_log_terminate in Hrun as (new & Hnew & Hiff);
      [ | done ].
    exists new. split; [ done | ]. by rewrite Hiff, Z.leb_le.
  - apply export_loop_log, loop_log_terminate in Hrun as (new & Hnew & Hiff);
      [ | done ].
    exists new. split; [ done | ]. by rewrite Hiff, Z.leb_le.
  - apply identity_loop_log, loop_log_terminate in Hrun as (new & Hnew & Hiff);
      [ | done ].
    exists new. split; [ done | ].
    by rewrite Hiff, orb_true_iff, Z.leb_le, Z.eqb_eq.
Qed.

End ClientFacts.

(** ** Scripted runs *)

Lemma search_session_submitted SUCCESS NO_MORE_RESULTS NOT_FOUND Rec
    (poll : nat → string → Z → Http (ResultResponse Rec)) id st fuel maxresults w :
  st ≠ 1 →
  search_session SUCCESS NO_MORE_RESULTS NOT_FOUND Rec (submitted id st) poll
    fuel maxresults w
  = search_loop SUCCESS NO_MORE_RESULTS NOT_FOUND Rec poll fuel 0 id []
      (or_default maxresults 100) (logged w (Submit "/intelligent/search")).
Proof.
  intros Hst. unfold search_session, intelligentSearch, bind, fetch, ret, submitted.
  cbn [ok code body sr_status sr_id negb].
  by rewrite (proj2 (Z.eqb_neq st 1) Hst).
Qed.

Lemma identity_submit_submitted path id st w :
  (3 < String.length id)%nat →
  identity_submit (submitted id st) path w = (Returned id, logged w (Submit path)).
Proof.
  intros Hid. unfold identity_submit, bind, fetch, ret, submitted.
  cbn [ok code body sr_status sr_id negb].
  destruct (Nat.leb_spec (String.length id) 3) as [ | _ ]; [ lia | done ].
Qed.

Lemma identity_session_submitted Rec
    (poll : nat → string → Z → Http (ResultResponse Rec)) id st fuel limit w :
  (3 < String.length id)%nat →
  identity_search_session Rec (submitted id st) poll fuel limit w
  = identity_loop Rec poll fuel 0 id [] (or_default limit 100)
      (logged w (Submit "/live/search/internal")).
Proof.
  intros Hid. unfold identity_search_session, bind.
  by rewrite identity_submit_submitted.
Qed.

Lemma budget5_batch10_counterexample :
  ¬ (∀ fuel s w,
       search_session 0 1 2 nat (submitted "job-1" 0)
         (scripted [] (outcome 0 [1; 2; 3; 4; 5; 6; 7; 8; 9; 10]%nat))
         fuel (Some 5) fresh_world = (Returned s, w) →
       length (accumulated s) = 5%nat).
Proof.
  intros H. specialize (H 1%nat _ _ eq_refl). simpl in H. discriminate.
Qed.

(** C1. With budget 5, a first round that answers CONTINUE with a batch of
    10 records ends the loop at once: the full-text engine has accumulated
    the whole batch of 10 records, the remaining budget is -5, and it has
    issued one terminate call before returning.  The identity engine ends
    after the same three requests, the last one being the terminate call. *)
Theorem budget5_batch10_terminates
    (SUCCESS NO_MORE_RESULTS NOT_FOUND : Z) (Rec : Type)
    (rs : list Rec) (id : string) (fuel : nat) :
  length rs = 10%nat →
  search_session SUCCESS NO_MORE_RESULTS NOT_FOUND Rec (submitted id 0)
    (scripted [] (outcome SUCCESS rs)) (S fuel) (Some 5) fresh_world
  = (Returned {| accumulated := rs; remainingBudget := -5; lastStatus := SUCCESS |},
     {| registry := initial_registry;
        calls := [Submit "/intelligent/search";
                  Poll "/intelligent/search/result" id 5;
                  Terminate "/intelligent/search/terminate" id] |})
  ∧ ((3 < String.length id)%nat →
     ∃ s, identity_search_session Rec (submitted id 0)
            (scripted [] (outcome 0 rs)) (S fuel) (Some 5) fresh_world
          = (Returned s,
             {| registry := initial_registry;
                calls := [Submit "/live/search/internal";
                          Poll "/live/search/result" id 5;
                          Terminate "/live/search/terminate" id] |})
          ∧ remainingBudget s = -5).
Proof.
  intros Hlen.
  assert (Hcount : count rs = 10) by (unfold count; rewrite Hlen; done).
  split.
  - rewrite search_session_submitted by done.
    rewrite search_loop_unfold. unfold scripted, outcome, logged, fresh_world. cbn.
    rewrite Hcount. cbn. by rewrite andb_false_r, !orb_true_r.
  - intros Hid. rewrite identity_session_submitted by done.
    rewrite identity_loop_unfold. unfold scripted, outcome, logged, fresh_world.
    cbn. rewrite Hcount. cbn. eauto.
Qed.

Lemma budget5_batch10_terminates_witness :
  length [1; 2; 3; 4; 5; 6; 7; 8; 9; 10]%nat = 10%nat
  ∧ search_session 0 1 2 nat (submitted "job-1" 0)
      (scripted [] (outcome 0 [1; 2; 3; 4; 5; 6; 7; 8; 9; 10]%nat))
      1 (Some 5) fresh_world
    = (Returned {| accumulated := [1; 2; 3; 4; 5; 6; 7; 8; 9; 10]%nat;
                   remainingBudget := -5; lastStatus := 0 |},
       {| registry := initial_registry;
          calls := [Submit "/intelligent/search";
                    Poll "/intelligent/search/result" "job-1" 5;
                    Terminate "/intelligent/search/terminate" "job-1"] |}).
Proof.
  split; [ reflexivity | ].
  exact (proj1 (budget5_batch10_terminates 0 1 2 nat
                  [1; 2; 3; 4; 5; 6; 7; 8; 9; 10]%nat "job-1" 0 eq_refl)).
Defined.

(** C4. With budget 10 and the scripted outcomes CONTINUE with no record,
    CONTINUE with 3 records, COMPLETE with 2 records, the full-text engine
    returns after the third round with exactly the 5 records accumulated, in
    order, and no terminate call in its log; so does the identity engine when
    CONTINUE is status 0 and COMPLETE is status 2. *)
Theorem scripted_run_completes
    (SUCCESS NO_MORE_RESULTS NOT_FOUND : Z) (Rec : Type)
    (a b c d e : Rec) (rest : ResultResponse Rec) (id : string) (fuel : nat) :
  SUCCESS ≠ NO_MORE_RESULTS → SUCCESS ≠ NOT_FOUND →
  let log := [Submit "/intelligent/search";
              Poll "/intelligent/search/result" id 10;
              Poll "/intelligent/search/result" id 10;
              Poll "/intelligent/search/result" id 7] in
  let identity_log := [Submit "/live/search/internal";
                       Poll "/live/search/result" id 10;
                       Poll "/live/search/result" id 10;
                       Poll "/live/search/result" id 7] in
  search_session SUCCESS NO_MORE_RESULTS NOT_FOUND Rec (submitted id 0)
    (scripted [outcome SUCCESS []; outcome SUCCESS [a; b; c];
               outcome NO_MORE_RESULTS [d; e]] rest)
    (S (S (S fuel))) (Some 10) fresh_world
  = (Returned {| accumulated := [a; b; c; d; e]; remainingBudget := 5;
                 lastStatus := NO_MORE_RESULTS |},
     {| registry := initial_registry; calls := log |})
  ∧ ((3 < String.length id)%nat →
     identity_search_session Rec (submitted id 0)
       (scripted [outcome 0 []; outcome 0 [a; b; c]; outcome 2 [d; e]] rest)
       (S (S (S fuel))) (Some 10) fresh_world
     = (Returned {| accumulated := [a; b; c; d; e]; remainingBudget := 7;
                    lastStatus := 2 |},
        {| registry := initial_registry; calls := identity_log |}))
  ∧ length [a; b; c; d; e] = 5%nat
  ∧ ¬ terminate_issued log ∧ ¬ terminate_issued identity_log.
Proof.
  intros Hne1 Hne2 log identity_log.
  apply Z.eqb_neq in Hne1, Hne2.
  split; [ | split; [ | split; [ done | ] ] ].
  - rewrite search_session_submitted by done.
    unfold scripted, outcome, logged, fresh_world.
    rewrite search_loop_unfold. cbn -[search_loop].
    rewrite Z.eqb_refl. decide_closed.
    rewrite search_loop_unfold. cbn -[search_loop].
    rewrite Z.eqb_refl, Hne1, Hne2. decide_closed.
    rewrite search_loop_unfold. cbn -[search_loop].
    rewrite Z.eqb_refl, andb_false_r. decide_closed. reflexivity.
  - intros Hid. rewrite identity_session_submitted by done.
    unfold scripted, outcome, logged, fresh_world.
    rewrite identity_loop_unfold. cbn -[identity_loop]. decide_closed.
    rewrite identity_loop_unfold. cbn -[identity_loop]. decide_closed.
    rewrite identity_loop_unfold. cbn -[identity_loop]. decide_closed.
    reflexivity.
  - split; intros (path & i & Hin); unfold log, identity_log in Hin;
      repeat (apply elem_of_cons in Hin as [Hin | Hin]; [ done | ]);
      by apply elem_of_nil in Hin.
Qed.

Lemma scripted_run_completes_witness :
  (0 : Z) ≠ 1 ∧ (0 : Z) ≠ 2
  ∧ search_session 0 1 2 nat (submitted "job-1" 0)
      (scripted [outcome 0 []; outcome 0 [11; 12; 13]%nat; outcome 1 [14; 15]%nat]
         (outcome 0 []))
      3 (Some 10) fresh_world
    = (Returned {| accumulated := [11; 12; 13; 14; 15]%nat; remainingBudget := 5;
                   lastStatus := 1 |},
       {| registry := initial_registry;
          calls := [Submit "/intelligent/search";
                    Poll "/intelligent/search/result" "job-1" 10;
                    Poll "/intelligent/search/result" "job-1" 10;
                    Poll "/intelligent/search/result" "job-1" 7] |}).
Proof.
  assert (H1 : (0 : Z) ≠ 1) by lia.
  assert (H2 : (0 : Z) ≠ 2) by lia.
  split; [ exact H1 | split; [ exact H2 | ] ].
  exact (proj1 (scripted_run_completes 0 1 2 nat 11%nat 12%nat 13%nat 14%nat 15%nat
                  (outcome 0 []) "job-1" 0 H1 H2)).
Defined.

(** ** Checks on the submit response *)

Lemma submit_checks_counterexample :
  ¬ rejected_before_poll
      (phonebookSearchComplete_session 1 2 nat (submitted "ab" 1)
         (λ _ _ _, {| ok := true; code := 200;
                      body := {| pb_status := 1; selectors := [] |} |})
         1 None fresh_world)
  ∧ ¬ rejected_before_poll
        (search_session 0 1 2 nat (submitted "ab" 0)
           (scripted [] (outcome 1 [])) 1 None fresh_world)
  ∧ ¬ rejected_before_poll
        (identity_search_session nat (submitted "job-1" 1)
           (scripted [] (outcome 2 [])) 1 None fresh_world).
Proof.
  repeat split; intros [[e He] _]; vm_compute in He; discriminate.
Qed.

(** C3. The full-text submit raises "Invalid search term" when the submit
    response carries status 1, and the identity and account-export submits
    raise "Invalid search ID" when the returned handle has length 3 or less;
    in each case the log holds the submit request alone, so no poll has been
    attempted. *)
Theorem submit_checks
    (SUCCESS NO_MORE_RESULTS NOT_FOUND : Z) (Rec : Type)
    (poll : nat → string → Z → Http (ResultResponse Rec))
    (id : string) (st : Z) (fuel : nat) (budget : option Z) (w : World) :
  search_session SUCCESS NO_MORE_RESULTS NOT_FOUND Rec (submitted id 1) poll
    fuel budget w
  = (Threw InvalidSearchTerm, logged w (Submit "/intelligent/search"))
  ∧ ((String.length id ≤ 3)%nat →
     identity_search_session Rec (submitted id st) poll fuel budget w
     = (Threw (InvalidSearchId id), logged w (Submit "/live/search/internal"))
     ∧ exportAccounts_session Rec (submitted id st) poll fuel budget w
       = (Threw (InvalidSearchId id), logged w (Submit "/accounts/csv")))
  ∧ (∀ c, is_poll c = false → Forall (λ c, is_poll c = false) (calls w) →
          Forall (λ c, is_poll c = false) (calls (logged w c))).
Proof.
  split; [ done | split ].
  - intros Hid.
    assert (Hleb : Nat.leb (String.length id) 3 = true) by by apply Nat.leb_le.
    unfold identity_search_session, exportAccounts_session, identity_submit,
      bind, fetch, throw, submitted, logged.
    cbn [ok code body sr_status sr_id negb]. by rewrite Hleb.
  - intros c Hc Hw. unfold logged. cbn. apply Forall_app. split; [ done | ].
    by repeat constructor.
Qed.

Lemma submit_checks_witness :
  (String.length "ab" ≤ 3)%nat
  ∧ identity_search_session nat (submitted "ab" 0) (scripted [] (outcome 0 []))
      5 (Some 10) fresh_world
    = (Threw (InvalidSearchId "ab"),
       logged fresh_world (Submit "/live/search/internal"))
  ∧ exportAccounts_session nat (submitted "ab" 0) (scripted [] (outcome 0 []))
      5 (Some 10) fresh_world
    = (Threw (InvalidSearchId "ab"), logged fresh_world (Submit "/accounts/csv")).
Proof.
  assert (Hid : (String.length "ab" ≤ 3)%nat) by (vm_compute; lia).
  split; [ exact Hid | ].
  exact (proj1 (proj2 (submit_checks 0 1 2 nat (scripted [] (outcome 0 []))
                         "ab" 0 5 (Some 10) fresh_world)) Hid).
Defined.

(** ** Terminate calls *)

Lemma terminate_iff_budget_exhausted_counterexample :
  ¬ (∀ (poll : nat → string → Z → Http (ResultResponse nat))
       fuel round id acc budget w s w',
       identity_loop nat poll fuel round id acc budget w = (Returned s, w') →
       ∃ new, calls w' = calls w ++ new
              ∧ (terminate_issued new ↔ remainingBudget s ≤ 0)).
Proof.
  intros H.
  destruct (H (scripted [] {| status := 3; records := None |})
              1%nat 0%nat "job-1" [] 10 fresh_world _ _ eq_refl)
    as (new & Hnew & Hiff).
  cbn in Hnew. subst new.
  assert (Hissued : terminate_issued
            [Poll "/live/search/result" "job-1" 10;
             Terminate "/live/search/terminate" "job-1"]).
  { exists "/live/search/terminate", "job-1".
    apply elem_of_cons. right. apply elem_of_cons. by left. }
  apply Hiff in Hissued. cbn in Hissued. lia.
Qed.

Lemma terminate_iff_budget_exhausted_witness :
  search_loop 0 1 2 nat (scripted [] (outcome 1 [7; 8]%nat)) 1 0 "job-1" [] 10
    fresh_world
  = (Returned {| accumulated := [7; 8]%nat; remainingBudget := 8; lastStatus := 1 |},
     {| registry := initial_registry;
        calls := [Poll "/intelligent/search/result" "job-1" 10] |})
  ∧ ∃ new, [Poll "/intelligent/search/result" "job-1" 10] = [] ++ new
           ∧ (terminate_issued new ↔ 8 ≤ 0).
Proof.
  split; [ reflexivity | ].
  exact (proj1 (terminate_iff_budget_exhausted 0 1 2 nat nat
                  (scripted [] (outcome 1 [7; 8]%nat))
                  (λ _ _ _, {| ok := true; code := 200;
                               body := {| pb_status := 1; selectors := [] |} |}))
           1%nat 0%nat "job-1" [] 10 fresh_world _ _ eq_refl).
Defined.

(** ** Dependent operations and unknown identifiers *)

Section HandlerFacts.

Variable file_response : Call → Http json.
Variable could_not_generate : Call → bool.

Lemma resolve_or_throw_unknown field param id w :
  truthy (getOriginalUuid (registry w) field id) = false →
  resolve_or_throw field param id w = (Threw (InvalidIdentifier param id), w).
Proof.
  intros H. unfold resolve_or_throw, get_registry, bind, throw. by rewrite H.
Qed.

(** The tool handlers stop before any request when the identifier does not
    resolve. *)
Lemma tool_handlers_reject_unknown (id : Z) (bucket : string) (w : World) :
  truthy (getOriginalUuid (registry w) "storageid" id) = false →
  truthy (getOriginalUuid (registry w) "systemid" id) = false →
  intelx_file_preview file_response id bucket w
  = (Threw (InvalidIdentifier "storage_id" id), w)
  ∧ intelx_file_view file_response id bucket w
    = (Threw (InvalidIdentifier "storage_id" id), w)
  ∧ intelx_file_read file_response id bucket w
    = (Threw (InvalidIdentifier "system_id" id), w)
  ∧ intelx_get_selectors file_response id w
    = (Threw (InvalidIdentifier "system_id" id), w)
  ∧ (id ≠ 0 →
     intelx_file_treeview file_response could_not_generate bucket (Some id) None w
     = (Threw (InvalidIdentifier "storage_id" id), w)
     ∧ intelx_file_treeview file_response could_not_generate bucket None (Some id) w
       = (Threw (InvalidIdentifier "system_id" id), w)).
Proof.
  intros Hst Hsy.
  unfold intelx_file_preview, intelx_file_view, intelx_file_read,
    intelx_get_selectors, intelx_file_treeview, resolve_optional.
  split; [ | split; [ | split; [ | split ] ] ];
    try (unfold bind at 1; by rewrite resolve_or_throw_unknown).
  intros Hid. apply Z.eqb_neq in Hid. rewrite Hid. split.
  - unfold bind. by rewrite resolve_or_throw_unknown.
  - unfold bind, ret. by rewrite resolve_or_throw_unknown.
Qed.

(** The handlers of the server ask for the namespaces "storageid" and
    "systemid"; [postprocess.ts] registers "storage_id" and "system_id". *)
Lemma handler_namespaces_unregistered reg id :
  getOriginalUuid reg "storageid" id = None
  ∧ getOriginalUuid reg "systemid" id = None.
Proof. by split. Qed.

Lemma request_log c w :
  calls (request file_response c w).2 = calls w ++ [c]
  ∧ registry (request file_response c w).2 = registry w
  ∧ ((request file_response c w).1 = Returned (body (file_response c))
     ∨ (request file_response c w).1 = Threw (ApiError (code (file_response c)))).
Proof.
  unfold request, bind, fetch, throw, ret.
  destruct (ok (file_response c)); cbn; auto.
Qed.

Lemma file_resource_unfold id bucket w :
  bucket ≠ "" →
  file_resource file_response id bucket w
  = request file_response
      (FileCall "/file/read" "systemid"
         (template (getOriginalUuid (registry w) "systemid" id)) bucket) w.
Proof.
  intros Hb. unfold file_resource. by rewrite bool_decide_eq_false_2.
Qed.

Lemma tree_resource_log id bucket w :
  bucket ≠ "" →
  truthy (getOriginalUuid (registry w) "storageid" id) = false →
  calls (tree_resource file_response could_not_generate id bucket w).2
  = calls w ++ [FileCall "/file/view" "" "" bucket].
Proof.
  intros Hb Hid. unfold tree_resource. rewrite bool_decide_eq_false_2 by done.
  unfold bind at 1. unfold get_registry. unfold fileTreeView. rewrite Hid. cbn.
  unfold bind.
  destruct (request_log (FileCall "/file/view" "" "" bucket) w)
    as (Hcalls & Hreg & [Hout | Hout]);
    destruct (request file_response _ w) as [o w1]; cbn in *; subst o;
    [ | done ].
  destruct (could_not_generate _); [ done | ].
  unfold normalizeM, ret. cbn.
  by destruct (normalizeIntelxId (registry w1) _).
Qed.

(** C9. In a fresh process no identifier resolves.  The tool handlers then
    fail with "Invalid storage_id" / "Invalid system_id" and leave the log
    empty, but the two resource handlers do not test the result of
    [getOriginalUuid]: [intelx://file] requests [/file/read] with the
    identifier "undefined" and [intelx://tree] requests [/file/view] without
    an identifier. *)
Theorem resource_handlers_call_upstream_unresolved :
  intelx_file_read file_response 999 "leaks" fresh_world
  = (Threw (InvalidIdentifier "system_id" 999), fresh_world)
  ∧ intelx_file_preview file_response 999 "leaks" fresh_world
    = (Threw (InvalidIdentifier "storage_id" 999), fresh_world)
  ∧ getOriginalUuid (registry fresh_world) "systemid" 999 = None
  ∧ calls (file_resource file_response 999 "leaks" fresh_world).2
    = [FileCall "/file/read" "systemid" "undefined" "leaks"]
  ∧ calls (tree_resource file_response could_not_generate 999 "leaks"
             fresh_world).2
    = [FileCall "/file/view" "" "" "leaks"]
  ∧ ∀ param id, (file_resource file_response 999 "leaks" fresh_world).1
                ≠ Threw (InvalidIdentifier param id).
Proof.
  destruct (tool_handlers_reject_unknown 999 "leaks" fresh_world eq_refl eq_refl)
    as (Hpreview & _ & Hread & _).
  split; [ exact Hread | split; [ exact Hpreview | split; [ done | ] ] ].
  assert (Hb : ("leaks" : string) ≠ "") by done.
  rewrite (file_resource_unfold 999 "leaks" fresh_world Hb).
  destruct (request_log
              (FileCall "/file/read" "systemid"
                 (template (getOriginalUuid (registry fresh_world) "systemid" 999))
                 "leaks") fresh_world) as (Hcalls & _ & Hout).
  split; [ exact Hcalls | split ].
  - exact (tree_resource_log 999 "leaks" fresh_world Hb eq_refl).
  - intros param id Heq. destruct Hout as [Hout | Hout]; congruence.
Qed.

End HandlerFacts.

(** * Further properties of the code *)

(** ** The registry *)

(** Whatever allocation preserves, the forward walk preserves. *)
Lemma scan_items_preserves (P : Registry → Prop) l :
  Forall (λ x, ∀ reg, P reg → P (normalizeIntelxId reg x).1) l →
  ∀ reg, P reg → P (scan_items normalizeIntelxId reg l).1.
Proof.
  induction 1 as [ | x l Hx _ IH ]; intros reg HP; simpl; [ done | ].
  specialize (Hx reg HP). destruct (normalizeIntelxId reg x) as [reg1 x'].
  specialize (IH reg1 Hx). by destruct (scan_items normalizeIntelxId reg1 l).
Qed.

Lemma scan_entries_preserves (P : Registry → Prop) l :
  (∀ reg f s, P reg → P (assign reg f s).1) →
  Forall (λ kv, ∀ reg, P reg → P (normalizeIntelxId reg kv.2).1) l →
  ∀ reg copy, P reg → P (scan_entries normalizeIntelxId reg copy l).1.
Proof.
  intros Hassign.
  induction 1 as [ | [key value] l Hx _ IH ]; intros reg copy HP; [ done | ].
  rewrite scan_entries_step. apply IH. unfold entry_step.
  destruct (is_transition_field key), value as [ | b | n | s | items | entries ];
    try (by apply Hx).
  specialize (Hassign reg key s HP). by destruct (assign reg key s).
Qed.

Lemma normalize_preserves (P : Registry → Prop) :
  (∀ reg f s, P reg → P (assign reg f s).1) →
  ∀ v reg, P reg → P (normalizeIntelxId reg v).1.
Proof.
  intros Hassign v.
  induction v as [ | b | n | s | items IH | entries IH ] using json_ind;
    intros reg HP; try done.
  - pose proof (scan_items_preserves P _ IH reg HP) as H. simpl.
    by destruct (scan_items normalizeIntelxId reg items).
  - pose proof (scan_entries_preserves P _ Hassign IH reg [] HP) as H. simpl.
    by destruct (scan_entries normalizeIntelxId reg [] entries).
Qed.

Lemma run_ops_preserves (P : Registry → Prop) :
  (∀ reg f s, P reg → P (assign reg f s).1) →
  ∀ ops reg, P reg → P (run_ops reg ops).
Proof.
  intros Hassign ops. induction ops as [ | op ops IH ]; intros reg HP; [ done | ].
  simpl. apply IH. destruct op; simpl; [ by apply Hassign | ].
  by apply normalize_preserves.
Qed.

Lemma assign_dense reg f s :
  reg_inv reg ∧ reg_dense reg →
  reg_inv (assign reg f s).1 ∧ reg_dense (assign reg f s).1.
Proof.
  intros [Hinv Hd]. split; [ by apply assign_inv | ].
  unfold assign. destruct (uuidToIdMaps reg f !! s) as [n | ] eqn:Hs; [ done | ].
  intros f'. simpl. destruct (Hd f') as [Hdom Hsize].
  destruct (decide (f = f')) as [ <- | Hf ];
    [ rewrite !fn_lookup_insert | by rewrite !fn_lookup_insert_ne by done ].
  pose proof (inv_counter _ Hinv f) as Hc. split.
  - intros n. destruct (decide (counters reg f = n)) as [ <- | Hne ].
    + rewrite lookup_insert_eq. split; [ lia | eauto ].
    + rewrite lookup_insert_ne by done. rewrite Hdom. lia.
  - rewrite map_size_insert_None by done. lia.
Qed.

Lemma initial_registry_dense : reg_dense initial_registry.
Proof.
  intros f. simpl. split; [ | by rewrite map_size_empty ].
  intros n. rewrite lookup_empty. split; [ by intros [? ?] | lia ].
Qed.

Lemma reachable_dense ops :
  reg_inv (run_ops initial_registry ops) ∧ reg_dense (run_ops initial_registry ops).
Proof.
  apply (run_ops_preserves (λ reg, reg_inv reg ∧ reg_dense reg)).
  - intros reg f s. apply assign_dense.
  - split; [ apply initial_registry_inv | apply initial_registry_dense ].
Qed.

(** X1. In a registry reached by any operations, the identifiers of a field
    are exactly 1, 2, ..., counter - 1, each resolving to a raw value, and a
    raw value not seen before receives the number of distinct values seen so
    far plus one. *)
Theorem identifiers_are_sequential (ops : list RegistryOp) (f : string) :
  let reg := run_ops initial_registry ops in
  (∀ n, 1 ≤ n < counters reg f ↔ ∃ raw, idToUuidMaps reg f !! n = Some raw)
  ∧ (∀ raw, uuidToIdMaps reg f !! raw = None →
            (assign reg f raw).2 = Z.of_nat (size (uuidToIdMaps reg f)) + 1)
  ∧ (assign initial_registry f "first").2 = 1.
Proof.
  intros reg. destruct (reachable_dense ops) as [Hinv Hd].
  destruct (Hd f) as [Hdom Hsize]. fold reg in Hdom, Hsize.
  split; [ | split; [ | done ] ].
  - intros n. rewrite <- Hdom. unfold is_Some. done.
  - intros raw Hraw. unfold assign. rewrite Hraw. simpl. done.
Qed.

(** X2. Resolution inverts allocation: after a raw value of a transition
    field has received its identifier, [getOriginalUuid] gives the raw value
    back and [getNormalizedId] gives the identifier, also after any further
    operations; in every reached registry the two lookups are inverse to each
    other. *)
Theorem resolve_inverts_assign
    (before later : list RegistryOp) (field raw : string) :
  field ∈ TRANSITION_FIELDS →
  let reg := run_ops initial_registry before in
  let id := (assign reg field raw).2 in
  let reg' := run_ops (assign reg field raw).1 later in
  getOriginalUuid reg' field id = Some raw
  ∧ getNormalizedId reg' field raw = Some id
  ∧ (∀ n s, getOriginalUuid reg' field n = Some s
            ↔ getNormalizedId reg' field s = Some n).
Proof.
  intros Hfield reg id reg'.
  assert (Ht : is_transition_field field = true)
    by (unfold is_transition_field; by apply bool_decide_eq_true_2).
  destruct (run_ops_keeps before _ initial_registry_inv) as [Hinv _].
  pose proof (assign_inv reg field raw Hinv) as Hinv1.
  destruct (run_ops_keeps later _ Hinv1) as [Hinv2 Hle]. fold reg' in Hinv2, Hle.
  pose proof (Hle _ _ _ (assign_lookup reg field raw)) as Hfwd. fold id in Hfwd.
  unfold getOriginalUuid, getNormalizedId. rewrite Ht.
  split; [ by apply (inv_fwd_rev _ Hinv2) | split; [ done | ] ].
  intros n s. split; [ apply (inv_rev_fwd _ Hinv2) | apply (inv_fwd_rev _ Hinv2) ].
Qed.

Lemma resolve_inverts_assign_witness :
  ("storage_id" : string) ∈ TRANSITION_FIELDS
  ∧ let reg := run_ops initial_registry [OpAssign "storage_id" "aa"] in
    let id := (assign reg "storage_id" "bb").2 in
    let reg' := run_ops (assign reg "storage_id" "bb").1
                  [OpNormalize (JObj [("storage_id", JStr "cc")])] in
    getOriginalUuid reg' "storage_id" id = Some "bb"
    ∧ getNormalizedId reg' "storage_id" "bb" = Some id
    ∧ (∀ n s, getOriginalUuid reg' "storage_id" n = Some s
              ↔ getNormalizedId reg' "storage_id" s = Some n).
Proof.
  assert (Hk : ("storage_id" : string) ∈ TRANSITION_FIELDS).
  { refine (bool_decide_unpack _ _). vm_compute. exact I. }
  split; [ exact Hk | ].
  exact (resolve_inverts_assign [OpAssign "storage_id" "aa"]
           [OpNormalize (JObj [("storage_id", JStr "cc")])] "storage_id" "bb" Hk).
Defined.

(** ** The walks, place by place *)

Lemma no_transition_obj entries :
  no_transition_keys (JObj entries)
  ↔ Forall (λ kv, is_transition_field kv.1 = false ∧ no_transition_keys kv.2)
      entries.
Proof.
  simpl.
  by rewrite (foldr_and_Forall
                (λ kv, is_transition_field kv.1 = false ∧ no_transition_keys kv.2)).
Qed.

Lemma no_transition_arr items :
  no_transition_keys (JArr items) ↔ Forall no_transition_keys items.
Proof. simpl. by rewrite foldr_and_Forall. Qed.

Lemma no_transition_normal v : wf_json v → no_transition_keys v → normal v.
Proof.
  induction v as [ | b | n | s | items IH | entries IH ] using json_ind;
    intros Hwf Hno; try done.
  - apply wf_arr in Hwf. apply no_transition_arr in Hno. apply normal_arr.
    rewrite Forall_forall in IH, Hwf, Hno |- *. intros x Hx.
    by apply IH; [ | apply Hwf | apply Hno ].
  - apply wf_obj in Hwf as [Hkeys Hwf]. apply no_transition_obj in Hno.
    apply normal_obj. split; [ done | ].
    rewrite Forall_forall in IH, Hwf, Hno |- *. intros kv Hkv.
    destruct (Hno kv Hkv) as [Hk Hv]. split.
    + by apply IH; [ | apply Hwf | ].
    + intros [Ht _]. congruence.
Qed.

Lemma denormalize_without_transition_keys reg v :
  wf_json v → no_transition_keys v → denormalizeIntelxId reg v = v.
Proof.
  induction v as [ | b | n | s | items IH | entries IH ] using json_ind;
    intros Hwf Hno; try done.
  - apply wf_arr in Hwf. apply no_transition_arr in Hno. simpl. f_equal.
    rewrite <- (map_id items) at 2. apply map_ext_in. intros x Hx%list_elem_of_In.
    rewrite Forall_forall in IH, Hwf, Hno. by apply IH; [ | apply Hwf | apply Hno ].
  - apply wf_obj in Hwf as [Hkeys Hwf]. apply no_transition_obj in Hno.
    rewrite denormalize_obj by done. f_equal.
    rewrite <- (map_id entries) at 2. apply map_ext_in.
    intros [k x] Hkx%list_elem_of_In. simpl.
    rewrite Forall_forall in IH, Hwf, Hno.
    destruct (Hno _ Hkx) as [Hk Hx]. simpl in Hk, Hx.
    unfold entry_back. rewrite Hk. f_equal.
    exact (IH _ Hkx (Hwf _ Hkx) Hx).
Qed.

(** X3. A tree in which no property is named after a transition field goes
    through both walks unchanged, and the forward walk leaves the registry as
    it is: identifiers under other names (the upstream's own [systemid],
    [storageid], ...) are never pseudonymized. *)
Theorem walks_ignore_other_keys (reg : Registry) (tree : json) :
  wf_json tree → no_transition_keys tree →
  normalizeIntelxId reg tree = (reg, tree)
  ∧ denormalizeIntelxId reg tree = tree.
Proof.
  intros Hwf Hno. split.
  - by apply normal_fixed, no_transition_normal.
  - by apply denormalize_without_transition_keys.
Qed.

Lemma walks_ignore_other_keys_witness :
  let tree := JArr [JObj [("user", JStr "u"); ("systemid", JStr "raw-1");
                          ("storageid", JStr "raw-2"); ("size", JNum 3)]] in
  wf_json tree ∧ no_transition_keys tree
  ∧ normalizeIntelxId initial_registry tree = (initial_registry, tree)
  ∧ denormalizeIntelxId initial_registry tree = tree.
Proof.
  assert (Hwf : wf_json
    (JArr [JObj [("user", JStr "u"); ("systemid", JStr "raw-1");
                 ("storageid", JStr "raw-2"); ("size", JNum 3)]])).
  { simpl. repeat split; apply (bool_decide_unpack _); vm_compute; exact I. }
  assert (Hno : no_transition_keys
    (JArr [JObj [("user", JStr "u"); ("systemid", JStr "raw-1");
                 ("storageid", JStr "raw-2"); ("size", JNum 3)]])).
  { simpl. repeat split; vm_compute; reflexivity. }
  split; [ exact Hwf | split; [ exact Hno | ] ].
  exact (walks_ignore_other_keys initial_registry _ Hwf Hno).
Defined.

Lemma normal_no_string k s p :
  is_transition_field k = true →
  ∀ v, normal v → get_path (p ++ [Key k]) v ≠ Some (JStr s).
Proof.
  intros Hk. induction p as [ | st p IH ]; intros v Hn Hget.
  - simpl in Hget. destruct v as [ | | | | | entries ]; try done.
    destruct (obj_get entries k) as [x | ] eqn:Hx; [ | done ].
    injection Hget as ->. apply normal_obj in Hn as [_ Hall].
    rewrite Forall_forall in Hall.
    destruct (Hall _ (obj_get_elem _ _ _ Hx)) as [_ Hno]. apply Hno. eauto.
  - destruct st as [k0 | i]; simpl in Hget.
    + destruct v as [ | | | | | entries ]; try done.
      destruct (obj_get entries k0) as [x | ] eqn:Hx; [ | done ].
      apply normal_obj in Hn as [_ Hall]. rewrite Forall_forall in Hall.
      destruct (Hall _ (obj_get_elem _ _ _ Hx)) as [Hnx _].
      exact (IH x Hnx Hget).
    + destruct v as [ | | | | items | ]; try done.
      destruct (items !! i) as [x | ] eqn:Hx; [ | done ].
      apply normal_arr in Hn. rewrite Forall_forall in Hn.
      exact (IH x (Hn _ (list_elem_of_lookup_2 _ _ _ Hx)) Hget).
Qed.

(** X4. The output of the forward walk holds no string under a transition
    field, at any depth and for any input and registry: no raw identifier
    under these names gets through. *)
Theorem normalized_tree_has_no_raw_identifier
    (reg : Registry) (tree : json) (p : list step) (k s : string) :
  k ∈ TRANSITION_FIELDS →
  get_path (p ++ [Key k]) (normalizeIntelxId reg tree).2 ≠ Some (JStr s).
Proof.
  intros Hk. apply normal_no_string.
  - unfold is_transition_field. by apply bool_decide_eq_true_2.
  - apply normalize_normal.
Qed.

Lemma normalized_tree_has_no_raw_identifier_witness :
  ("owner" : string) ∈ TRANSITION_FIELDS
  ∧ get_path ([Idx 0%nat] ++ [Key "owner"])
      (normalizeIntelxId initial_registry
         (JArr [JObj [("owner", JStr "o1"); ("owner", JStr "o2")]])).2
    ≠ Some (JStr "o2").
Proof.
  assert (Hk : ("owner" : string) ∈ TRANSITION_FIELDS).
  { refine (bool_decide_unpack _ _). vm_compute. exact I. }
  split; [ exact Hk | ].
  exact (normalized_tree_has_no_raw_identifier initial_registry _ [Idx 0%nat]
           "owner" "o2" Hk).
Defined.

Lemma normalize_scalar reg v : ¬ container v → normalizeIntelxId reg v = (reg, v).
Proof. by destruct v. Qed.

Lemma get_path_cons_container st p x y :
  get_path (st :: p) x = Some y → container x.
Proof. destruct st, x; simpl; done. Qed.

Lemma pseudonym_of_cons R st st' p v out :
  pseudonym_of R (st :: st' :: p) v out ↔ pseudonym_of R (st' :: p) v out.
Proof. done. Qed.

Lemma normalize_path p :
  ∀ tree reg R v,
    reg_inv reg → wf_json tree → reg_inv R →
    reg_le (normalizeIntelxId reg tree).1 R →
    get_path p tree = Some v → ¬ container v →
    ∃ out, get_path p (normalizeIntelxId reg tree).2 = Some out
           ∧ pseudonym_of R p v out.
Proof.
  induction p as [ | st p IH ]; intros tree reg R v Hinv Hwf HR Hle Hget Hv.
  - injection Hget as ->. rewrite normalize_scalar by done. by exists v.
  - destruct st as [k0 | i]; simpl in Hget.
    + destruct tree as [ | | | | | entries ]; try done.
      destruct (obj_get entries k0) as [x | ] eqn:Hx; [ | done ].
      apply wf_obj in Hwf as [Hnd Hall].
      assert (Hwfx : wf_json x).
      { rewrite Forall_forall in Hall. exact (Hall _ (obj_get_elem _ _ _ Hx)). }
      rewrite normalize_obj in Hle |- * by done. cbn [fst snd] in Hle |- *.
      destruct (entries_map_get entries reg k0 x Hinv Hx) as (r1 & Hr1 & Hle1 & Hk0).
      cbn [get_path]. rewrite Hk0.
      destruct p as [ | st' p ].
      * injection Hget as ->. cbn [get_path]. unfold pseudonym_of. cbn [last].
        unfold entry_step in *.
        destruct (is_transition_field k0) eqn:Ht.
        -- destruct v as [ | b | n | s | items | entries' ];
             try (eexists; split; [ reflexivity | done ]); try done.
           pose proof (assign_lookup r1 k0 s) as Hs.
           destruct (assign r1 k0 s) as [r1' id]. cbn [fst snd] in *.
           exists (JNum id). split; [ done | ]. exists id. split; [ done | ].
           unfold getOriginalUuid. rewrite Ht.
           exact (inv_fwd_rev _ HR _ _ _ (Hle _ _ _ (Hle1 _ _ _ Hs))).
        -- rewrite normalize_scalar by done. exists v. split; [ done | ].
           by destruct v.
      * pose proof (get_path_cons_container _ _ _ _ Hget) as Hc.
        rewrite entry_step_container in Hle1 |- * by done.
        destruct (IH x r1 R v Hr1 Hwfx HR (reg_le_trans _ _ _ Hle1 Hle) Hget Hv)
          as (out & Hout & Hps).
        exists out. split; [ done | ]. by apply pseudonym_of_cons.
    + destruct tree as [ | | | | items | ]; try done.
      destruct (items !! i) as [x | ] eqn:Hx; [ | done ].
      apply wf_arr in Hwf.
      assert (Hwfx : wf_json x).
      { rewrite Forall_forall in Hwf. apply Hwf. by eapply list_elem_of_lookup_2. }
      destruct (scan_items_get items reg i x Hinv Hx) as (r1 & Hr1 & Hle1 & Hi).
      simpl in Hle |- *.
      destruct (scan_items normalizeIntelxId reg items) as [reg' items'].
      cbn [fst snd] in *. rewrite Hi.
      destruct (IH x r1 R v Hr1 Hwfx HR (reg_le_trans _ _ _ Hle1 Hle) Hget Hv)
        as (out & Hout & Hps).
      exists out. split; [ done | ].
      destruct p as [ | st' p ]; [ | by apply pseudonym_of_cons ].
      unfold pseudonym_of in *. cbn [last] in *. by destruct v.
Qed.

(** X5. The forward walk changes transition-field strings and nothing else:
    at every place where a well-formed tree holds a scalar, the output holds
    the same scalar, except under a transition field holding a string, where
    it holds a number that [getOriginalUuid] resolves to that string. *)
Theorem normalize_changes_transition_strings_only
    (before : list RegistryOp) (tree : json) (p : list step) (v : json) :
  wf_json tree → get_path p tree = Some v → ¬ container v →
  let reg := run_ops initial_registry before in
  ∃ out, get_path p (normalizeIntelxId reg tree).2 = Some out
         ∧ pseudonym_of (normalizeIntelxId reg tree).1 p v out.
Proof.
  intros Hwf Hget Hv reg.
  destruct (run_ops_keeps before _ initial_registry_inv) as [Hinv _].
  apply normalize_path; try done.
  - by apply normalize_inv.
  - apply reg_le_refl.
Qed.

Lemma normalize_changes_transition_strings_only_witness :
  let tree := JObj [("bucket", JStr "leaks"); ("target", JNum 2);
                    ("item", JObj [("group", JStr "g-raw")])] in
  wf_json tree
  ∧ get_path [Key "item"; Key "group"] tree = Some (JStr "g-raw")
  ∧ ¬ container (JStr "g-raw")
  ∧ ∃ out, get_path [Key "item"; Key "group"]
             (normalizeIntelxId (run_ops initial_registry []) tree).2 = Some out
           ∧ pseudonym_of (normalizeIntelxId (run_ops initial_registry []) tree).1
               [Key "item"; Key "group"] (JStr "g-raw") out.
Proof.
  assert (Hwf : wf_json
    (JObj [("bucket", JStr "leaks"); ("target", JNum 2);
           ("item", JObj [("group", JStr "g-raw")])])).
  { simpl. repeat split; apply (bool_decide_unpack _); vm_compute; exact I. }
  assert (Hv : ¬ container (JStr "g-raw")) by (intros H; exact H).
  split; [ exact Hwf | split; [ reflexivity | split; [ exact Hv | ] ] ].
  exact (normalize_changes_transition_strings_only [] _
           [Key "item"; Key "group"] (JStr "g-raw") Hwf eq_refl Hv).
Defined.




(** ** Merging identity records *)













(** ** Truncated lines *)

Lemma string_app_length (a b : string) :
  String.length (a +:+ b) = (String.length a + String.length b)%nat.
Proof.
  induction a as [ | x a IH ]; [ done | ].
  change (S (String.length (a +:+ b)) = S (String.length a + String.length b)).
  by rewrite IH.
Qed.

Lemma more_marker_length (k : nat) :
  (k < 22)%nat →
  (22 ≤ String.length (more_marker (Z.of_nat (129 + k) - 128)) ≤ 23)%nat
  ∧ (k < String.length (more_marker (Z.of_nat (129 + k) - 128)) - 1)%nat.
Proof.
  intros Hk.
  do 22 (destruct k as [ | k ]; [ vm_compute; lia | ]). lia.
Qed.

(** X8. Cutting a line does not always shorten it: when the trimmed line has
    between 129 and 150 characters, the rendered line (128 characters and the
    marker) has 150 or 151 characters and is longer than the line it
    replaces. *)
Theorem truncation_can_lengthen (raw : string) (n : nat) :
  String.length (trim raw) = n → (128 < n ≤ 150)%nat →
  (n < String.length (render_line raw))%nat
  ∧ (150 ≤ String.length (render_line raw) ≤ 151)%nat.
Proof.
  intros Hlen Hn. unfold render_line. rewrite Hlen.
  destruct (128 <? Z.of_nat n) eqn:Hcmp; [ | apply Z.ltb_ge in Hcmp; lia ].
  rewrite string_app_length, substring_prefix_length by lia.
  assert (Hk : ∃ k, (k < 22)%nat ∧ n = (129 + k)%nat).
  { exists (n - 129)%nat. lia. }
  destruct Hk as (k & Hk & ->).
  pose proof (more_marker_length k Hk) as Hm.
  lia.
Qed.

Lemma truncation_can_lengthen_witness :
  let raw := digits10 +:+ digits10 +:+ digits10 +:+ digits10 +:+ digits10
             +:+ digits10 +:+ digits10 +:+ digits10 +:+ digits10 +:+ digits10
             +:+ digits10 +:+ digits10 +:+ digits10 in
  String.length (trim raw) = 130%nat ∧ (128 < 130 ≤ 150)%nat
  ∧ (130 < String.length (render_line raw))%nat
  ∧ (150 ≤ String.length (render_line raw) ≤ 151)%nat.
Proof.
  assert (Hlen : String.length
            (trim (digits10 +:+ digits10 +:+ digits10 +:+ digits10 +:+ digits10
                   +:+ digits10 +:+ digits10 +:+ digits10 +:+ digits10
                   +:+ digits10 +:+ digits10 +:+ digits10 +:+ digits10))
          = 130%nat) by (vm_compute; reflexivity).
  assert (Hn : (128 < 130 ≤ 150)%nat) by lia.
  split; [ exact Hlen | split; [ exact Hn | ] ].
  exact (truncation_can_lengthen _ 130 Hlen Hn).
Defined.

(** ** The polling loops: failures, budget, busy polling *)

Section LoopFacts.

Variables SUCCESS NO_MORE_RESULTS NOT_FOUND : Z.
Variables Rec Sel : Type.
Variable poll_response : nat → string → Z → Http (ResultResponse Rec).
Variable phonebook_response : nat → string → Z → Http (PhonebookResultResponse Sel).

Local Abbreviation loopS :=
  (search_loop SUCCESS NO_MORE_RESULTS NOT_FOUND Rec poll_response).
Local Abbreviation loopP :=
  (phonebook_loop NO_MORE_RESULTS NOT_FOUND Sel phonebook_response).
Local Abbreviation loopI := (identity_loop Rec poll_response).
Local Abbreviation loopE := (export_loop Rec poll_response).

Lemma failed_at_poll_here {A} (response : nat → string → Z → Http A)
    path round id limit w :
  ok (response round id limit) = false →
  failed_at_poll response id (code (response round id limit)) w
    (logged w (Poll path id limit)).
Proof.
  intros Hok. split; [ done | ]. by exists [], path, round, limit.
Qed.

Lemma failed_at_poll_step {A} (response : nat → string → Z → Http A)
    id c w p w' :
  is_poll p = true →
  failed_at_poll response id c (logged w p) w' →
  failed_at_poll response id c w w'.
Proof.
  intros Hp [Hreg (polls & path & round & limit & Hcalls & Hpolls & Hok & Hc)].
  split; [ done | ]. exists (p :: polls), path, round, limit.
  split; [ | split; [ by constructor | done ] ].
  rewrite Hcalls. simpl. by rewrite <- app_assoc.
Qed.

Lemma failed_at_poll_no_terminate {A} (response : nat → string → Z → Http A)
    id c w w' :
  failed_at_poll response id c w w' →
  ∃ new, calls w' = calls w ++ new ∧ ¬ terminate_issued new.
Proof.
  intros [_ (polls & path & round & limit & Hcalls & Hpolls & _)].
  exists (polls ++ [Poll path id limit]). split; [ done | ].
  intros (tpath & tid & Hin). apply elem_of_app in Hin as [Hin | Hin].
  - rewrite Forall_forall in Hpolls. by apply Hpolls in Hin.
  - by apply list_elem_of_singleton in Hin.
Qed.

Lemma search_loop_api_error fuel : ∀ round id acc budget w c w',
  loopS fuel round id acc budget w = (Threw (ApiError c), w') →
  failed_at_poll poll_response id c w w'.
Proof.
  induction fuel as [ | fuel IH ]; intros round id acc budget w c w' Hrun; [ done | ].
  rewrite search_loop_unfold in Hrun. cbv zeta in Hrun.
  destruct (ok (poll_response round id budget)) eqn:Hok; cbn [negb] in Hrun.
  2: { injection Hrun as <- <-. by apply failed_at_poll_here. }
  destruct (_ && _).
  { eapply failed_at_poll_step; [ | by apply (IH _ _ _ _ _ _ _ Hrun) ]. done. }
  destruct (_ || _); [ done | ].
  eapply failed_at_poll_step; [ | by apply (IH _ _ _ _ _ _ _ Hrun) ]. done.
Qed.

Lemma phonebook_loop_api_error fuel : ∀ round id acc budget w c w',
  loopP fuel round id acc budget w = (Threw (ApiError c), w') →
  failed_at_poll phonebook_response id c w w'.
Proof.
  induction fuel as [ | fuel IH ]; intros round id acc budget w c w' Hrun; [ done | ].
  rewrite phonebook_loop_unfold in Hrun. cbv zeta in Hrun.
  destruct (ok (phonebook_response round id budget)) eqn:Hok; cbn [negb] in Hrun.
  2: { injection Hrun as <- <-. by apply failed_at_poll_here. }
  destruct (_ || _); [ done | ].
  eapply failed_at_poll_step; [ | by apply (IH _ _ _ _ _ _ _ Hrun) ]. done.
Qed.

Lemma identity_loop_api_error fuel : ∀ round id acc budget w c w',
  loopI fuel round id acc budget w = (Threw (ApiError c), w') →
  failed_at_poll poll_response id c w w'.
Proof.
  induction fuel as [ | fuel IH ]; intros round id acc budget w c w' Hrun; [ done | ].
  rewrite identity_loop_unfold in Hrun. cbv zeta in Hrun.
  destruct (ok (poll_response round id budget)) eqn:Hok; cbn [negb] in Hrun.
  2: { injection Hrun as <- <-. by apply failed_at_poll_here. }
  destruct (_ || _); [ done | ].
  destruct (status _ =? 3); [ done | ].
  eapply failed_at_poll_step; [ | by apply (IH _ _ _ _ _ _ _ Hrun) ]. done.
Qed.

Lemma export_loop_api_error fuel : ∀ round id acc budget w c w',
  loopE fuel round id acc budget w = (Threw (ApiError c), w') →
  failed_at_poll poll_response id c w w'.
Proof.
  induction fuel as [ | fuel IH ]; intros round id acc budget w c w' Hrun; [ done | ].
  rewrite export_loop_unfold in Hrun. cbv zeta in Hrun.
  destruct (ok (poll_response round id budget)) eqn:Hok; cbn [negb] in Hrun.
  2: { injection Hrun as <- <-. by apply failed_at_poll_here. }
  destruct (_ || _); [ done | ].
  eapply failed_at_poll_step; [ | by apply (IH _ _ _ _ _ _ _ Hrun) ]. done.
Qed.

(** X9. A polling loop that ends with an API error has added nothing but
    polls to the log: the last request is a poll whose response was not ok
    and carried the error's status code, and no terminate call has been
    issued, so the upstream job is left as it is and the records gathered so
    far are not returned.  This holds for all four loops.  (Runs that end with
    another exception, such as a rejected request, are not described.) *)
Theorem failed_poll_is_fatal :
  (∀ fuel round id acc budget w c w',
     loopS fuel round id acc budget w = (Threw (ApiError c), w') →
     failed_at_poll poll_response id c w w'
     ∧ ∃ new, calls w' = calls w ++ new ∧ ¬ terminate_issued new)
  ∧ (∀ fuel round id acc budget w c w',
       loopP fuel round id acc budget w = (Threw (ApiError c), w') →
       failed_at_poll phonebook_response id c w w'
       ∧ ∃ new, calls w' = calls w ++ new ∧ ¬ terminate_issued new)
  ∧ (∀ fuel round id acc budget w c w',
       loopI fuel round id acc budget w = (Threw (ApiError c), w') →
       failed_at_poll poll_response id c w w'
       ∧ ∃ new, calls w' = calls w ++ new ∧ ¬ terminate_issued new)
  ∧ (∀ fuel round id acc budget w c w',
       loopE fuel round id acc budget w = (Threw (ApiError c), w') →
       failed_at_poll poll_response id c w w'
       ∧ ∃ new, calls w' = calls w ++ new ∧ ¬ terminate_issued new).
Proof.
  split; [ | split; [ | split ] ]; intros fuel round id acc budget w c w' Hrun.
  - apply search_loop_api_error in Hrun.
    split; [ done | by apply (failed_at_poll_no_terminate poll_response id c) ].
  - apply phonebook_loop_api_error in Hrun.
    split; [ done | by apply (failed_at_poll_no_terminate phonebook_response id c) ].
  - apply identity_loop_api_error in Hrun.
    split; [ done | by apply (failed_at_poll_no_terminate poll_response id c) ].
  - apply export_loop_api_error in Hrun.
    split; [ done | by apply (failed_at_poll_no_terminate poll_response id c) ].
Qed.

Lemma search_loop_budget fuel : ∀ round id acc budget w s w',
  loopS fuel round id acc budget w = (Returned s, w') →
  ∃ more, accumulated s = acc ++ more
          ∧ remainingBudget s = budget - count more.
Proof.
  induction fuel as [ | fuel IH ]; intros round id acc budget w s w' Hrun; [ done | ].
  rewrite search_loop_unfold in Hrun. cbv zeta in Hrun.
  destruct (negb (ok (poll_response round id budget))); [ done | ].
  assert (Hstep : ∀ s0 w0,
            loopS fuel (S round) id
              match records (body (poll_response round id budget)) with
              | Some rs => acc ++ rs
              | None => acc
              end
              match records (body (poll_response round id budget)) with
              | Some rs => budget - count rs
              | None => budget
              end w0 = (Returned s0, w') →
            ∃ more, accumulated s0 = acc ++ more
                    ∧ remainingBudget s0 = budget - count more).
  { intros s0 w0 H0. destruct (IH _ _ _ _ _ _ _ H0) as (more & Hacc & Hrem).
    destruct (records (body (poll_response round id budget))) as [rs | ].
    - exists (rs ++ more). rewrite Hacc, Hrem, <- app_assoc. split; [ done | ].
      unfold count. rewrite length_app. lia.
    - by exists more. }
  destruct (_ && _); [ by eapply Hstep | ].
  destruct (_ || _); [ | by eapply Hstep ].
  injection Hrun as <- <-. cbn [accumulated remainingBudget].
  destruct (records (body (poll_response round id budget))) as [rs | ].
  - by exists rs.
  - exists []. rewrite app_nil_r. split; [ done | ]. unfold count. simpl. lia.
Qed.

Lemma export_loop_budget fuel : ∀ round id acc budget w s w',
  loopE fuel round id acc budget w = (Returned s, w') →
  ∃ more, accumulated s = acc ++ more
          ∧ remainingBudget s = budget - count more.
Proof.
  induction fuel as [ | fuel IH ]; intros round id acc budget w s w' Hrun; [ done | ].
  rewrite export_loop_unfold in Hrun. cbv zeta in Hrun.
  destruct (negb (ok (poll_response round id budget))); [ done | ].
  destruct (_ || _).
  - injection Hrun as <- <-. cbn [accumulated remainingBudget].
    destruct (status _ =? 0), (records (body (poll_response round id budget)))
      as [rs | ]; first [ by exists rs
                        | exists []; rewrite app_nil_r; split; [ done | ];
                          unfold count; simpl; lia ].
  - destruct (IH _ _ _ _ _ _ _ Hrun) as (more & Hacc & Hrem).
    destruct (status _ =? 0), (records (body (poll_response round id budget)))
      as [rs | ]; try (by exists more).
    exists (rs ++ more). rewrite Hacc, Hrem, <- app_assoc. split; [ done | ].
    unfold count. rewrite length_app. lia.
Qed.

Lemma selector_total_app (a b : list (PhonebookResultResponse Sel)) :
  selector_total (a ++ b) = selector_total a + selector_total b.
Proof.
  induction a as [ | x a IH ]; simpl; [ done | ]. rewrite IH. lia.
Qed.

Lemma phonebook_loop_budget fuel : ∀ round id acc budget w s w',
  loopP fuel round id acc budget w = (Returned s, w') →
  ∃ more, accumulated s = acc ++ more ∧ more ≠ []
          ∧ remainingBudget s = budget - selector_total more.
Proof.
  induction fuel as [ | fuel IH ]; intros round id acc budget w s w' Hrun; [ done | ].
  rewrite phonebook_loop_unfold in Hrun. cbv zeta in Hrun.
  destruct (negb (ok (phonebook_response round id budget))); [ done | ].
  destruct (_ || _).
  - injection Hrun as <- <-. cbn [accumulated remainingBudget].
    exists [body (phonebook_response round id budget)].
    split; [ done | split; [ done | ] ]. simpl. lia.
  - destruct (IH _ _ _ _ _ _ _ Hrun) as (more & Hacc & _ & Hrem).
    exists (body (phonebook_response round id budget) :: more).
    rewrite Hacc, Hrem, <- app_assoc. split; [ done | split; [ done | ] ].
    simpl. lia.
Qed.

Lemma identity_loop_budget fuel : ∀ round id acc budget w s w',
  loopI fuel round id acc budget w = (Returned s, w') →
  ∃ more, accumulated s = acc ++ more
          ∧ budget - count more ≤ remainingBudget s ≤ budget.
Proof.
  induction fuel as [ | fuel IH ]; intros round id acc budget w s w' Hrun; [ done | ].
  rewrite identity_loop_unfold in Hrun. cbv zeta in Hrun.
  destruct (negb (ok (poll_response round id budget))); [ done | ].
  destruct (_ || _).
  { injection Hrun as <- <-. cbn [accumulated remainingBudget].
    destruct (status _ =? 0), (records (body (poll_response round id budget)))
      as [rs | ].
    - exists (rs ++ rs). rewrite <- app_assoc. split; [ done | ].
      unfold count. rewrite length_app. lia.
    - exists []. rewrite app_nil_r. split; [ done | ]. unfold count. simpl. lia.
    - exists rs. split; [ done | ]. unfold count. lia.
    - exists []. rewrite app_nil_r. split; [ done | ]. unfold count. simpl. lia. }
  destruct (status _ =? 3) eqn:H3.
  { injection Hrun as <- <-. cbn [accumulated remainingBudget].
    destruct (status _ =? 0), (records (body (poll_response round id budget)))
      as [rs | ];
      first [ exists rs; split; [ done | ]; unfold count; lia
            | exists []; rewrite app_nil_r; split; [ done | ];
              unfold count; simpl; lia ]. }
  destruct (IH _ _ _ _ _ _ _ Hrun) as (more & Hacc & Hrem).
  destruct (status _ =? 0), (records (body (poll_response round id budget)))
    as [rs | ]; try (by exists more).
  exists (rs ++ more). rewrite Hacc, <- app_assoc. split; [ done | ].
  unfold count in *. rewrite length_app. lia.
Qed.

(** X10. Budget accounting.  When the full-text loop or the account-export
    loop finishes, the records it has added number exactly the budget it
    started with minus the remaining budget, and the records it was given at
    the start are still in front.  The phonebook loop keeps at least one
    response and its remaining budget is the start budget minus the selectors
    of the responses it kept.  The identity loop never raises the budget, but
    its list can hold more records than the budget it has spent. *)
Theorem budget_accounting :
  (∀ fuel round id acc budget w s w',
     loopS fuel round id acc budget w = (Returned s, w') →
     ∃ more, accumulated s = acc ++ more
             ∧ remainingBudget s = budget - count more)
  ∧ (∀ fuel round id acc budget w s w',
       loopE fuel round id acc budget w = (Returned s, w') →
       ∃ more, accumulated s = acc ++ more
               ∧ remainingBudget s = budget - count more)
  ∧ (∀ fuel round id acc budget w s w',
       loopP fuel round id acc budget w = (Returned s, w') →
       ∃ more, accumulated s = acc ++ more ∧ more ≠ []
               ∧ remainingBudget s = budget - selector_total more)
  ∧ (∀ fuel round id acc budget w s w',
       loopI fuel round id acc budget w = (Returned s, w') →
       ∃ more, accumulated s = acc ++ more
               ∧ budget - count more ≤ remainingBudget s ≤ budget).
Proof.
  split; [ | split; [ | split ] ]; intros fuel round id acc budget w s w' Hrun.
  - by eapply search_loop_budget.
  - by eapply export_loop_budget.
  - by eapply phonebook_loop_budget.
  - by eapply identity_loop_budget.
Qed.

Lemma still_polling_step {A} (run : Outcome A * World) w c n :
  is_poll c = true → still_polling run (logged w c) n → still_polling run w (S n).
Proof.
  intros Hc [Hout (polls & Hlen & Hpolls & Hcalls)]. split; [ done | ].
  exists (c :: polls). split; [ simpl; lia | split; [ by constructor | ] ].
  rewrite Hcalls. simpl. by rewrite <- app_assoc.
Qed.

Lemma still_polling_zero {A} (w : World) :
  still_polling (@out_of_fuel A w) w 0.
Proof.
  split; [ done | ]. exists []. split; [ done | split; [ done | ] ].
  simpl. by rewrite app_nil_r.
Qed.

Lemma search_busy_poll id :
  (∀ round limit,
     ok (poll_response round id limit) = true
     ∧ status (body (poll_response round id limit)) = SUCCESS
     ∧ (records (body (poll_response round id limit)) = None
        ∨ records (body (poll_response round id limit)) = Some [])) →
  ∀ fuel round acc budget w,
    still_polling (loopS fuel round id acc budget w) w fuel.
Proof.
  intros Hup. induction fuel as [ | fuel IH ]; intros round acc budget w.
  - apply still_polling_zero.
  - rewrite search_loop_unfold. cbv zeta.
    destruct (Hup round budget) as (Hok & Hst & Hrec).
    rewrite Hok, Hst, Z.eqb_refl. cbn [negb andb].
    destruct Hrec as [-> | ->]; cbn.
    + eapply still_polling_step; [ | apply IH ]. done.
    + eapply still_polling_step; [ | apply IH ]. done.
Qed.

Lemma identity_unknown_status_polls id :
  (∀ round limit,
     ok (poll_response round id limit) = true
     ∧ status (body (poll_response round id limit)) ≠ 0
     ∧ status (body (poll_response round id limit)) ≠ 2
     ∧ status (body (poll_response round id limit)) ≠ 3) →
  ∀ fuel round acc budget w,
    0 < budget →
    still_polling (loopI fuel round id acc budget w) w fuel.
Proof.
  intros Hup. induction fuel as [ | fuel IH ]; intros round acc budget w Hb.
  - apply still_polling_zero.
  - rewrite identity_loop_unfold. cbv zeta.
    destruct (Hup round budget) as (Hok & H0 & H2 & H3).
    apply Z.eqb_neq in H0, H2, H3. rewrite Hok, H0, H2, H3. cbn [negb orb].
    destruct (Z.leb_spec budget 0) as [ | _ ]; [ lia | ].
    eapply still_polling_step; [ | by apply IH ]. done.
Qed.

Lemma export_unknown_status_polls id :
  (∀ round limit,
     ok (poll_response round id limit) = true
     ∧ status (body (poll_response round id limit)) ≠ 0
     ∧ status (body (poll_response round id limit)) ≠ 2) →
  ∀ fuel round acc budget w,
    0 < budget →
    still_polling (loopE fuel round id acc budget w) w fuel.
Proof.
  intros Hup. induction fuel as [ | fuel IH ]; intros round acc budget w Hb.
  - apply still_polling_zero.
  - rewrite export_loop_unfold. cbv zeta.
    destruct (Hup round budget) as (Hok & H0 & H2).
    apply Z.eqb_neq in H0, H2. rewrite Hok, H0, H2. cbn [negb orb].
    destruct (Z.leb_spec budget 0) as [ | _ ]; [ lia | ].
    eapply still_polling_step; [ | by apply IH ]. done.
Qed.

(** X11. The loops have no bound of their own.  While the upstream keeps
    answering the full-text poll with SUCCESS and no records, the loop keeps
    polling: after any number of rounds it has neither returned nor failed
    and has issued that many polls and no terminate call.  With budget left,
    the identity loop does the same for every status other than 0, 2 and 3
    (status 1 among them), and the account-export loop for every status other
    than 0 and 2 (status 3 among them). *)
Theorem loops_have_no_bound (id : string) :
  ((∀ round limit,
      ok (poll_response round id limit) = true
      ∧ status (body (poll_response round id limit)) = SUCCESS
      ∧ (records (body (poll_response round id limit)) = None
         ∨ records (body (poll_response round id limit)) = Some [])) →
   ∀ fuel round acc budget w,
     still_polling (loopS fuel round id acc budget w) w fuel)
  ∧ ((∀ round limit,
        ok (poll_response round id limit) = true
        ∧ status (body (poll_response round id limit)) ≠ 0
        ∧ status (body (poll_response round id limit)) ≠ 2
        ∧ status (body (poll_response round id limit)) ≠ 3) →
     ∀ fuel round acc budget w,
       0 < budget →
       still_polling (loopI fuel round id acc budget w) w fuel
       ∧ still_polling (loopE fuel round id acc budget w) w fuel)
  ∧ ((∀ round limit,
        ok (poll_response round id limit) = true
        ∧ status (body (poll_response round id limit)) = 3) →
     ∀ fuel round acc budget w,
       0 < budget →
       still_polling (loopE fuel round id acc budget w) w fuel).
Proof.
  split; [ apply search_busy_poll | split ].
  - intros Hup fuel round acc budget w Hb. split.
    + by apply identity_unknown_status_polls.
    + apply export_unknown_status_polls; [ | done ].
      intros r l. destruct (Hup r l) as (? & ? & ? & _). done.
  - intros Hup fuel round acc budget w Hb.
    apply export_unknown_status_polls; [ | done ].
    intros r l. destruct (Hup r l) as (? & ->). done.
Qed.

End LoopFacts.

Lemma failed_poll_is_fatal_witness :
  let down : nat → string → Z → Http (ResultResponse nat) :=
    λ round _ _, {| ok := bool_decide (round = 0%nat); code := 502;
                    body := outcome 0 [1; 2]%nat |} in
  let w' := {| registry := initial_registry;
               calls := [Poll "/intelligent/search/result" "job-1" 10;
                         Poll "/intelligent/search/result" "job-1" 8] |} in
  search_loop 0 1 2 nat down 5 0 "job-1" [] 10 fresh_world
  = (Threw (ApiError 502), w')
  ∧ failed_at_poll down "job-1" 502 fresh_world w'
  ∧ ∃ new, calls w' = calls fresh_world ++ new ∧ ¬ terminate_issued new.
Proof.
  split; [ reflexivity | ].
  exact (proj1 (failed_poll_is_fatal 0 1 2 nat nat
                  (λ round _ _, {| ok := bool_decide (round = 0%nat); code := 502;
                                   body := outcome 0 [1; 2]%nat |})
                  (λ _ _ _, {| ok := true; code := 200;
                               body := {| pb_status := 1; selectors := [] |} |}))
           5%nat 0%nat "job-1" [] 10 fresh_world 502 _ eq_refl).
Defined.

Lemma budget_accounting_witness :
  search_loop 0 1 2 nat
    (scripted [outcome 0 [1; 2; 3]%nat; outcome 1 [4]%nat] (outcome 0 []))
    4 0 "job-1" [] 10 fresh_world
  = (Returned {| accumulated := [1; 2; 3; 4]%nat; remainingBudget := 6;
                 lastStatus := 1 |},
     {| registry := initial_registry;
        calls := [Poll "/intelligent/search/result" "job-1" 10;
                  Poll "/intelligent/search/result" "job-1" 7] |})
  ∧ ∃ more, [1; 2; 3; 4]%nat = [] ++ more ∧ 6 = 10 - count more.
Proof.
  split; [ reflexivity | ].
  exact (proj1 (budget_accounting 0 1 2 nat nat
                  (scripted [outcome 0 [1; 2; 3]%nat; outcome 1 [4]%nat]
                     (outcome 0 []))
                  (λ _ _ _, {| ok := true; code := 200;
                               body := {| pb_status := 1; selectors := [] |} |}))
           4%nat 0%nat "job-1" [] 10 fresh_world _ _ eq_refl).
Defined.

Lemma loops_have_no_bound_witness :
  let pending : nat → string → Z → Http (ResultResponse nat) :=
    scripted [] {| status := 1; records := Some [7; 8]%nat |} in
  (∀ round limit,
     ok (pending round "job-1" limit) = true
     ∧ status (body (pending round "job-1" limit)) ≠ 0
     ∧ status (body (pending round "job-1" limit)) ≠ 2
     ∧ status (body (pending round "job-1" limit)) ≠ 3)
  ∧ still_polling (identity_loop nat pending 40 0 "job-1" [] 10 fresh_world)
      fresh_world 40.
Proof.
  assert (Hup : ∀ (round : nat) (limit : Z),
            ok (scripted [] {| status := 1; records := Some [7; 8]%nat |}
                  round "job-1" limit) = true
            ∧ status (body (scripted [] {| status := 1; records := Some [7; 8]%nat |}
                              round "job-1" limit)) ≠ 0
            ∧ status (body (scripted [] {| status := 1; records := Some [7; 8]%nat |}
                              round "job-1" limit)) ≠ 2
            ∧ status (body (scripted [] {| status := 1; records := Some [7; 8]%nat |}
                              round "job-1" limit)) ≠ 3).
  { intros round limit. unfold scripted. rewrite lookup_nil. cbn.
    repeat split; done. }
  split; [ exact Hup | ].
  assert (Hb : 0 < 10) by lia.
  exact (proj1 (proj1 (proj2 (loops_have_no_bound 0 1 2 nat
                                (scripted [] {| status := 1;
                                                records := Some [7; 8]%nat |})
                                "job-1")) Hup 40%nat 0%nat [] 10 fresh_world Hb)).
Defined.

(** ** The phonebook tool *)

Lemma normalizePhoneBookResponse_length
    (rounds : list (PhonebookResultResponse PhonebookSelector)) :
  count (normalizePhoneBookResponse rounds) = selector_total rounds.
Proof.
  unfold count. induction rounds as [ | r rounds IH ]; simpl; [ done | ].
  rewrite length_app, length_map. unfold count in *. lia.
Qed.

Lemma phonebook_session_returned NO_MORE_RESULTS NOT_FOUND Sel
    (submit_response : Http SearchResponse)
    (phonebook_response : nat → string → Z → Http (PhonebookResultResponse Sel))
    fuel maxresults w s w' :
  phonebookSearchComplete_session NO_MORE_RESULTS NOT_FOUND Sel submit_response
    phonebook_response fuel maxresults w = (Returned s, w') →
  phonebook_loop NO_MORE_RESULTS NOT_FOUND Sel phonebook_response fuel 0
    (sr_id (body submit_response)) [] (or_default maxresults 1000)
    (logged w (Submit "/phonebook/search")) = (Returned s, w').
Proof.
  unfold phonebookSearchComplete_session, phonebookSearch, bind, fetch, throw, ret,
    logged.
  by destruct (ok submit_response).
Qed.

(** X12. When the phonebook search returns, the selector values handed to the
    caller are as many as the budget it started with (the requested
    maximum, or 1000 when none or 0 was given) minus the remaining budget, and
    a terminate call has been issued exactly when that many values reach the
    budget. *)
Theorem phonebook_values_match_budget
    (NO_MORE_RESULTS NOT_FOUND : Z) (submit_response : Http SearchResponse)
    (phonebook_response :
       nat → string → Z → Http (PhonebookResultResponse PhonebookSelector))
    (fuel : nat) (maxresults : option Z) (w w' : World)
    (s : Session (PhonebookResultResponse PhonebookSelector)) :
  phonebookSearchComplete_session NO_MORE_RESULTS NOT_FOUND PhonebookSelector
    submit_response phonebook_response fuel maxresults w = (Returned s, w') →
  count (normalizePhoneBookResponse (accumulated s))
  = or_default maxresults 1000 - remainingBudget s
  ∧ ∃ new, calls w' = calls w ++ Submit "/phonebook/search" :: new
           ∧ (terminate_issued new
              ↔ or_default maxresults 1000
                ≤ count (normalizePhoneBookResponse (accumulated s))).
Proof.
  intros Hrun%phonebook_session_returned.
  destruct (phonebook_loop_budget _ _ _ _ _ _ _ _ _ _ _ _ Hrun)
    as (more & Hacc & _ & Hrem).
  simpl in Hacc. subst more.
  assert (Hcount : count (normalizePhoneBookResponse (accumulated s))
                   = or_default maxresults 1000 - remainingBudget s).
  { rewrite normalizePhoneBookResponse_length. lia. }
  split; [ done | ].
  apply phonebook_loop_log, loop_log_terminate in Hrun as (new & Hnew & Hiff);
    [ | done ].
  exists new. split.
  - rewrite Hnew. unfold logged. cbn. by rewrite <- app_assoc.
  - rewrite Hiff, Z.leb_le. lia.
Qed.

Lemma phonebook_values_match_budget_witness :
  let s := {| accumulated := [ {| pb_status := 0; selectors := sample_selectors |};
                               {| pb_status := 0; selectors := sample_selectors |} ];
              remainingBudget := -1; lastStatus := 0 |} in
  let w' := {| registry := initial_registry;
               calls := [Submit "/phonebook/search";
                         Poll "/phonebook/search/result" "job-1" 3;
                         Poll "/phonebook/search/result" "job-1" 1;
                         Terminate "/intelligent/search/terminate" "job-1"] |} in
  phonebookSearchComplete_session 1 2 PhonebookSelector (submitted "job-1" 0)
    sample_phonebook 5 (Some 3) fresh_world = (Returned s, w')
  ∧ normalizePhoneBookResponse (accumulated s)
    = ["a@x.org"; "b@x.org"; "a@x.org"; "b@x.org"]
  ∧ count (normalizePhoneBookResponse (accumulated s))
    = or_default (Some 3) 1000 - remainingBudget s.
Proof.
  split; [ reflexivity | split; [ reflexivity | ] ].
  exact (proj1 (phonebook_values_match_budget 1 2 (submitted "job-1" 0)
                  sample_phonebook 5 (Some 3) fresh_world _ _ eq_refl)).
Defined.

(** ** The identity search and its normalizer together *)



(** ** Request schemas *)

Lemma parse_fields_fail shape input k t :
  (k, t) ∈ shape → parse_field t (obj_get input k) = None →
  parse_fields shape input = None.
Proof.
  induction shape as [ | [k' t'] shape IH ]; intros Hin Hfail;
    [ by apply elem_of_nil in Hin | ].
  simpl. apply elem_of_cons in Hin as [[= <- <-] | Hin].
  - by rewrite Hfail.
  - rewrite (IH Hin Hfail). by destruct (parse_field t' _) as [[ | ] | ].
Qed.

Lemma parse_fields_get shape input out k t :
  NoDup (map fst shape) → (k, t) ∈ shape →
  parse_fields shape input = Some out →
  parse_field t (obj_get input k) = Some (obj_get out k).
Proof.
  revert out. induction shape as [ | [k' t'] shape IH ]; intros out Hnd Hin Hparse;
    [ by apply elem_of_nil in Hin | ].
  simpl in Hnd, Hparse. apply NoDup_cons in Hnd as [Hfresh Hnd].
  assert (Hother : ∀ out', parse_fields shape input = Some out' →
                           obj_get out' k' = None).
  { clear -Hfresh. revert Hfresh.
    induction shape as [ | [k0 t0] shape IH ]; intros Hfresh out' H'.
    - by injection H' as <-.
    - simpl in H', Hfresh. apply not_elem_of_cons in Hfresh as [Hne Hfresh].
      destruct (parse_field t0 _) as [[x | ] | ]; try done;
        destruct (parse_fields shape input) as [out0 | ]; try done;
        injection H' as <-; simpl; [ rewrite decide_False by done | ];
        by apply IH. }
  destruct (parse_field t' (obj_get input k')) as [[x | ] | ] eqn:Hk'; try done;
    destruct (parse_fields shape input) as [out0 | ] eqn:Hrest; try done;
    injection Hparse as <-.
  - apply elem_of_cons in Hin as [[= -> ->] | Hin].
    + simpl. by rewrite decide_True.
    + simpl. destruct (decide (k' = k)) as [ -> | Hne ].
      * exfalso. apply Hfresh. apply list_elem_of_fmap. by exists (k, t).
      * by apply IH.
  - apply elem_of_cons in Hin as [[= -> ->] | Hin].
    + rewrite Hk'. by rewrite (Hother out0).
    + by apply IH.
Qed.

Lemma string_property_parsed shape input out k :
  NoDup (map fst shape) → (k, ZString 0) ∈ shape →
  parse_fields shape input = Some out →
  ∃ s, obj_get out k = Some (JStr s).
Proof.
  intros Hnd Hin Hparse.
  pose proof (parse_fields_get _ _ _ _ _ Hnd Hin Hparse) as Hget.
  destruct (obj_get input k) as [[ | | | s | | ] | ]; simpl in Hget; try done.
  exists s. by injection Hget as <-.
Qed.

Lemma optional_string_property_parsed shape input out k :
  NoDup (map fst shape) → (k, ZOptional (ZString 0)) ∈ shape →
  parse_fields shape input = Some out →
  obj_get out k = None ∨ ∃ s, obj_get out k = Some (JStr s).
Proof.
  intros Hnd Hin Hparse.
  pose proof (parse_fields_get _ _ _ _ _ Hnd Hin Hparse) as Hget.
  destruct (obj_get input k) as [[ | | | s | | ] | ]; simpl in Hget; try done.
  - right. exists s. by injection Hget as <-.
  - left. by injection Hget as <-.
Qed.

Lemma declared_string_rejected (declared schema : list (string * ZodType))
    (params args : object) (k : string) (lower : option Z) :
  NoDup (map fst declared) → (k, ZString 0) ∈ declared →
  (k, ZNumber lower) ∈ schema →
  parse_fields declared params = Some args →
  parse_fields schema args = None.
Proof.
  intros Hnd Hin Hschema Hparse.
  destruct (string_property_parsed _ _ _ _ Hnd Hin Hparse) as [s Hs].
  apply (parse_fields_fail _ _ k (ZNumber lower)); [ done | ]. by rewrite Hs.
Qed.

(** X14. The arguments that a dependent tool's declared input schema lets
    through are always rejected by the schema its handler parses them with:
    the declared schema makes the identifier a string, the handler's schema
    wants a number (and, for the tree view, rejects the case without an
    identifier).  This holds for file preview, file view, file read, tree view
    and selector extraction. *)
Theorem handler_schemas_reject_declared_input (params args : object) :
  (parse_fields file_preview_input params = Some args →
   parse_fields filePreviewSchema args = None)
  ∧ (parse_fields file_view_input params = Some args →
     parse_fields fileViewSchema args = None)
  ∧ (parse_fields file_read_input params = Some args →
     parse_fields fileReadSchema args = None)
  ∧ (parse_fields file_treeview_input params = Some args →
     fileTreeViewSchema_parse args = None)
  ∧ (parse_fields get_selectors_input params = Some args →
     parse_fields getSelectorsSchema args = None).
Proof.
  split; [ | split; [ | split; [ | split ] ] ]; intros Hparse.
  - apply (declared_string_rejected file_preview_input _ params _ "storage_id"
             (Some 1)); [ shape_facts | shape_facts | shape_facts | done ].
  - apply (declared_string_rejected file_view_input _ params _ "storage_id"
             (Some 1)); [ shape_facts | shape_facts | shape_facts | done ].
  - apply (declared_string_rejected file_read_input _ params _ "system_id"
             (Some 1)); [ shape_facts | shape_facts | shape_facts | done ].
  - unfold fileTreeViewSchema_parse.
    destruct (parse_fields fileTreeViewShape args) as [data | ] eqn:Hdata; [ | done ].
    assert (Hnd : NoDup (map fst fileTreeViewShape)) by shape_facts.
    assert (Hnd' : NoDup (map fst file_treeview_input)) by shape_facts.
    assert (Hin1 : ("storage_id", ZOptional (ZNumber None)) ∈ fileTreeViewShape)
      by shape_facts.
    assert (Hin2 : ("system_id", ZOptional (ZNumber None)) ∈ fileTreeViewShape)
      by shape_facts.
    assert (Hin3 : ("storage_id", ZOptional (ZString 0)) ∈ file_treeview_input)
      by shape_facts.
    assert (Hin4 : ("system_id", ZOptional (ZString 0)) ∈ file_treeview_input)
      by shape_facts.
    pose proof (parse_fields_get _ _ _ _ _ Hnd Hin1 Hdata) as Hst.
    pose proof (parse_fields_get _ _ _ _ _ Hnd Hin2 Hdata) as Hsy.
    destruct (optional_string_property_parsed _ _ _ _ Hnd' Hin3 Hparse)
      as [Hs | [s Hs]]; rewrite Hs in Hst; simpl in Hst; [ | done ].
    destruct (optional_string_property_parsed _ _ _ _ Hnd' Hin4 Hparse)
      as [Hs' | [s' Hs']]; rewrite Hs' in Hsy; simpl in Hsy; [ | done ].
    injection Hst as <-. injection Hsy as <-. done.
  - apply (declared_string_rejected get_selectors_input _ params _ "system_id"
             (Some 1)); [ shape_facts | shape_facts | shape_facts | done ].
Qed.

Lemma handler_schemas_reject_declared_input_witness :
  let params := [("storage_id", JStr "3"); ("bucket", JStr "leaks");
                 ("media_type", JNum 24); ("content_type", JNum 1);
                 ("extra", JBool true)] in
  let args := [("storage_id", JStr "3"); ("bucket", JStr "leaks");
               ("media_type", JNum 24); ("content_type", JNum 1)] in
  parse_fields file_preview_input params = Some args
  ∧ parse_fields filePreviewSchema args = None.
Proof.
  split; [ reflexivity | ].
  exact (proj1 (handler_schemas_reject_declared_input
                  [("storage_id", JStr "3"); ("bucket", JStr "leaks");
                   ("media_type", JNum 24); ("content_type", JNum 1);
                   ("extra", JBool true)]
                  [("storage_id", JStr "3"); ("bucket", JStr "leaks");
                   ("media_type", JNum 24); ("content_type", JNum 1)]) eq_refl).
Defined.

(** ** The identity tool's budget *)

Lemma parse_fields_absent shape input out k :
  k ∉ map fst shape → parse_fields shape input = Some out → obj_get out k = None.
Proof.
  revert out. induction shape as [ | [k0 t0] shape IH ]; intros out Hfresh Hparse.
  - by injection Hparse as <-.
  - simpl in Hparse, Hfresh. apply not_elem_of_cons in Hfresh as [Hne Hfresh].
    destruct (parse_field t0 _) as [[x | ] | ]; try done;
      destruct (parse_fields shape input) as [out0 | ]; try done;
      injection Hparse as <-; simpl; [ rewrite decide_False by done | ];
      by apply IH.
Qed.

(** X15. The identity search tool never passes the requested [maxresults] on:
    the object its schema produces has a [maxresults] of at least 1 and no
    [limit], and the client reads [limit], so after an accepted submit the
    polling loop always starts with the default budget of 100. *)
Theorem identity_tool_ignores_maxresults Rec
    (poll : nat → string → Z → Http (ResultResponse Rec))
    (args validated : object) (id : string) (st : Z) (fuel : nat) (w : World) :
  parse_fields identitySearchSchema args = Some validated →
  (3 < String.length id)%nat →
  (∃ n, obj_get validated "maxresults" = Some (JNum n) ∧ 1 ≤ n)
  ∧ obj_get validated "limit" = None
  ∧ identity_search_of_validated Rec (submitted id st) poll fuel validated w
    = identity_loop Rec poll fuel 0 id [] 100
        (logged w (Submit "/live/search/internal")).
Proof.
  intros Hparse Hid.
  assert (Hlimit : obj_get validated "limit" = None).
  { apply (parse_fields_absent identitySearchSchema args); [ | done ].
    apply (bool_decide_unpack _). vm_compute. exact I. }
  split; [ | split; [ done | ] ].
  - assert (Hnd : NoDup (map fst identitySearchSchema)) by shape_facts.
    assert (Hin : ("maxresults", ZDefault (ZNumber (Some 1)) (JNum 100))
                  ∈ identitySearchSchema) by shape_facts.
    pose proof (parse_fields_get _ _ _ _ _ Hnd Hin Hparse) as Hget.
    destruct (obj_get args "maxresults") as [[ | | n | | | ] | ];
      simpl in Hget; try done.
    + destruct (1 <=? n) eqn:Hn; [ | done ]. injection Hget as <-.
      exists n. split; [ done | by apply Z.leb_le ].
    + injection Hget as <-. exists 100. split; [ done | lia ].
  - unfold identity_search_of_validated, number_property. rewrite Hlimit.
    by apply identity_session_submitted.
Qed.

Lemma identity_tool_ignores_maxresults_witness :
  let args := [("selector", JStr "a@example.com"); ("maxresults", JNum 5)] in
  let validated := [("selector", JStr "a@example.com"); ("maxresults", JNum 5);
                    ("analyze", JBool false); ("skip_invalid", JBool false)] in
  parse_fields identitySearchSchema args = Some validated
  ∧ (3 < String.length "job-1")%nat
  ∧ identity_search_of_validated nat (submitted "job-1" 0)
      (scripted [] (outcome 2 [])) 1 validated fresh_world
    = identity_loop nat (scripted [] (outcome 2 [])) 1 0 "job-1" [] 100
        (logged fresh_world (Submit "/live/search/internal")).
Proof.
  split; [ reflexivity | split; [ simpl; lia | ] ].
  refine (proj2 (proj2 (identity_tool_ignores_maxresults nat
                          (scripted [] (outcome 2 []))
                          [("selector", JStr "a@example.com"); ("maxresults", JNum 5)]
                          _ "job-1" 0 1%nat fresh_world eq_refl _))).
  simpl. lia.
Defined.

(** ** Bucket statistics *)

Lemma bucket_count_cons b r records :
  bucket_count b (r :: records)
  = (if decide (bucket_or_unknown r = b) then 1 else 0) + bucket_count b records.
Proof.
  unfold bucket_count. destruct (decide (bucket_or_unknown r = b)) as [Hb | Hb].
  - rewrite filter_cons_True by done. simpl length. lia.
  - rewrite filter_cons_False by done. lia.
Qed.

Lemma stats_total_insert (stats : gmap string Z) (b : string) (n : Z) :
  stats_total (<[b := n]> stats) = stats_total stats - default 0 (stats !! b) + n.
Proof.
  assert (Hfresh : ∀ m : gmap string Z, m !! b = None →
                     stats_total (<[b := n]> m) = n + stats_total m).
  { intros m Hm. unfold stats_total.
    rewrite (map_fold_insert_L (λ _ x acc, x + acc) 0 b n m); [ done | | done ].
    intros. lia. }
  destruct (stats !! b) as [x | ] eqn:Hb; simpl.
  - rewrite <- (insert_delete_id stats b x Hb) at 2.
    rewrite <- (insert_delete_eq stats b n).
    rewrite !Hfresh by apply lookup_delete_eq. unfold stats_total.
    rewrite (map_fold_insert_L (λ _ y acc, y + acc) 0 b x (delete b stats));
      [ lia | intros; lia | apply lookup_delete_eq ].
  - rewrite Hfresh by done. lia.
Qed.

Lemma searchStats_from_counts (records : list (option string)) :
  ∀ stats,
    Forall (λ r, inherited_name (bucket_or_unknown r) = false) records →
    ∃ stats',
      searchStats_from stats records = Some stats'
      ∧ (∀ b, default 0 (stats' !! b)
              = default 0 (stats !! b) + bucket_count b records)
      ∧ (∀ b, is_Some (stats' !! b)
              ↔ is_Some (stats !! b) ∨ ∃ r, r ∈ records ∧ bucket_or_unknown r = b)
      ∧ stats_total stats' = stats_total stats + Z.of_nat (length records).
Proof.
  induction records as [ | r records IH ]; intros stats Hok.
  - exists stats. split; [ done | ]. split; [ | split ].
    + intros b. unfold bucket_count. simpl. lia.
    + intros b. split; [ by left | ].
      intros [ H | (r & Hr & _) ]; [ done | by apply elem_of_nil in Hr ].
    + simpl. lia.
  - apply Forall_cons in Hok as [Hr Hok]. simpl. rewrite Hr.
    destruct (IH (<[bucket_or_unknown r := default 0 (stats !! bucket_or_unknown r) + 1]>
                    stats) Hok)
      as (stats' & Hrun & Hcount & Hdom & Htotal).
    exists stats'. split; [ done | ]. split; [ | split ].
    + intros b. rewrite Hcount, bucket_count_cons.
      destruct (decide (bucket_or_unknown r = b)) as [ <- | Hne ].
      * rewrite lookup_insert_eq. simpl. lia.
      * rewrite lookup_insert_ne by done. lia.
    + intros b. rewrite Hdom. split.
      * intros [ Hb | (r' & Hr' & Hb) ].
        -- destruct (decide (bucket_or_unknown r = b)) as [ <- | Hne ].
           ++ right. exists r. split; [ apply list_elem_of_here | done ].
           ++ left. by rewrite lookup_insert_ne in Hb.
        -- right. exists r'. split; [ by apply list_elem_of_further | done ].
      * intros [ Hb | (r' & Hr' & Hb) ].
        -- left. destruct (decide (bucket_or_unknown r = b)) as [ <- | Hne ].
           ++ rewrite lookup_insert_eq. by eexists.
           ++ by rewrite lookup_insert_ne.
        -- apply elem_of_cons in Hr' as [ -> | Hr' ].
           ++ left. rewrite <- Hb, lookup_insert_eq. by eexists.
           ++ right. by exists r'.
    + rewrite Htotal, stats_total_insert. simpl length. lia.
Qed.

(** X16. When no bucket name is a name inherited from [Object.prototype],
    [searchStats] returns an object that has exactly the buckets that occur
    (a missing or empty bucket counted as "unknown"), each with the number of
    records in it, and the counts add up to the number of records. *)
Theorem searchStats_counts_buckets (records : list (option string)) :
  Forall (λ r, inherited_name (bucket_or_unknown r) = false) records →
  ∃ stats,
    searchStats records = Some stats
    ∧ (∀ b, default 0 (stats !! b) = bucket_count b records)
    ∧ (∀ b, is_Some (stats !! b) ↔ ∃ r, r ∈ records ∧ bucket_or_unknown r = b)
    ∧ stats_total stats = Z.of_nat (length records).
Proof.
  intros Hok.
  destruct (searchStats_from_counts records ∅ Hok)
    as (stats & Hrun & Hcount & Hdom & Htotal).
  exists stats. split; [ done | ]. split; [ | split ].
  - intros b. rewrite Hcount, lookup_empty. simpl. lia.
  - intros b. rewrite Hdom, lookup_empty. split.
    + intros [ [x Hx] | H ]; [ done | done ].
    + intros H. by right.
  - rewrite Htotal. unfold stats_total. rewrite map_fold_empty. lia.
Qed.

Lemma searchStats_counts_buckets_witness :
  let records := [Some "leaks"; None; Some "pastes"; Some ""; Some "leaks"] in
  Forall (λ r, inherited_name (bucket_or_unknown r) = false) records
  ∧ ∃ stats,
      searchStats records = Some stats
      ∧ (∀ b, default 0 (stats !! b) = bucket_count b records)
      ∧ (∀ b, is_Some (stats !! b) ↔ ∃ r, r ∈ records ∧ bucket_or_unknown r = b)
      ∧ stats_total stats = Z.of_nat (length records).
Proof.
  assert (Hok : Forall (λ r, inherited_name (bucket_or_unknown r) = false)
                  [Some "leaks"; None; Some "pastes"; Some ""; Some "leaks"]).
  { repeat constructor. }
  split; [ exact Hok | ].
  exact (searchStats_counts_buckets _ Hok).
Defined.

(** ** The search tool's results *)

Lemma search_record_wf (record : Search.SearchRecord) :
  wf_json (search_record_normalized record).
Proof.
  unfold search_record_normalized. apply wf_obj. split.
  - unfold plain_keys, keys.
    destruct (Search.indexfile record); simpl;
      (split; [ apply (bool_decide_unpack _); vm_compute; exact I
              | apply (bool_decide_unpack _); vm_compute; exact I ]).
  - destruct (Search.indexfile record); simpl; repeat constructor.
Qed.

Lemma search_records_wf (records : list Search.SearchRecord) :
  wf_json (normalizeSearchRecordResponse records).
Proof.
  unfold normalizeSearchRecordResponse. apply wf_arr, Forall_fmap, Forall_forall.
  intros record _. apply search_record_wf.
Qed.

Lemma search_record_place records i r k v :
  records !! i = Some r →
  obj_get (match search_record_normalized r with JObj o => o | _ => [] end) k
  = Some v →
  get_path [Idx i; Key k] (normalizeSearchRecordResponse records) = Some v.
Proof.
  intros Hi Hk. unfold normalizeSearchRecordResponse. simpl.
  rewrite list_lookup_fmap, Hi. simpl. simpl in Hk. by rewrite Hk.
Qed.

Lemma search_tool_place (before : list RegistryOp) records i r k v :
  records !! i = Some r →
  obj_get (match search_record_normalized r with JObj o => o | _ => [] end) k
  = Some v →
  ¬ container v →
  let out := search_tool_results (run_ops initial_registry before) records in
  reg_inv out.1
  ∧ ∃ x, get_path [Idx i; Key k] out.2 = Some x
         ∧ pseudonym_of out.1 [Idx i; Key k] v x.
Proof.
  intros Hi Hk Hv out.
  destruct (run_ops_keeps before _ initial_registry_inv) as [Hinv _].
  assert (Hout : reg_inv out.1) by (by apply normalize_inv).
  split; [ done | ].
  apply normalize_path; try done.
  - apply search_records_wf.
  - apply reg_le_refl.
  - by apply (search_record_place records i r).
Qed.

(** X18. What the search tool returns for the record at a position: the
    record's system id, storage id and (when it has one) index file are
    replaced by numbers that [getOriginalUuid] resolves to the raw values,
    bucket, name, media, type and the two dates are the record's own, and two
    records get the same system id number exactly when their raw system ids
    are equal. *)
Theorem search_tool_pseudonymizes (before : list RegistryOp)
    (records : list Search.SearchRecord) (i : nat) (r : Search.SearchRecord) :
  records !! i = Some r →
  let out := search_tool_results (run_ops initial_registry before) records in
  (∃ n, get_path [Idx i; Key "system_id"] out.2 = Some (JNum n)
        ∧ getOriginalUuid out.1 "system_id" n = Some (Search.systemid r))
  ∧ (∃ n, get_path [Idx i; Key "storage_id"] out.2 = Some (JNum n)
          ∧ getOriginalUuid out.1 "storage_id" n = Some (Search.storageid r))
  ∧ (∀ f, Search.indexfile r = Some f →
          ∃ n, get_path [Idx i; Key "indexfile"] out.2 = Some (JNum n)
               ∧ getOriginalUuid out.1 "indexfile" n = Some f)
  ∧ get_path [Idx i; Key "bucket"] out.2 = Some (JStr (Search.bucket r))
  ∧ get_path [Idx i; Key "name"] out.2 = Some (JStr (Search.name r))
  ∧ get_path [Idx i; Key "media"] out.2 = Some (JNum (Search.media r))
  ∧ get_path [Idx i; Key "type"] out.2 = Some (JNum (Search.type r))
  ∧ get_path [Idx i; Key "added"] out.2 = Some (JStr (Search.added r))
  ∧ get_path [Idx i; Key "date"] out.2 = Some (JStr (Search.date r))
  ∧ (∀ j r' n n',
       records !! j = Some r' →
       get_path [Idx i; Key "system_id"] out.2 = Some (JNum n) →
       get_path [Idx j; Key "system_id"] out.2 = Some (JNum n') →
       n = n' ↔ Search.systemid r = Search.systemid r').
Proof.
  intros Hi out.
  assert (Hplace : ∀ j rj k v,
            records !! j = Some rj →
            obj_get (match search_record_normalized rj with
                     | JObj o => o | _ => [] end) k = Some v →
            ¬ container v →
            ∃ x, get_path [Idx j; Key k] out.2 = Some x
                 ∧ pseudonym_of out.1 [Idx j; Key k] v x).
  { intros j rj k v Hj Hk Hv.
    by destruct (search_tool_place before records j rj k v Hj Hk Hv). }
  assert (Hinv : reg_inv out.1).
  { assert (Hk : obj_get (match search_record_normalized r with
                          | JObj o => o | _ => [] end) "system_id"
                 = Some (JStr (Search.systemid r))) by reflexivity.
    by destruct (search_tool_place before records i r _ _ Hi Hk (λ x, x)). }
  assert (Hsys : ∀ j rj, records !! j = Some rj →
            ∃ n, get_path [Idx j; Key "system_id"] out.2 = Some (JNum n)
                 ∧ getOriginalUuid out.1 "system_id" n = Some (Search.systemid rj)).
  { intros j rj Hj.
    destruct (Hplace j rj "system_id" (JStr (Search.systemid rj)) Hj eq_refl
                (λ x, x)) as (x & Hx & n & -> & Hn).
    by exists n. }
  split; [ by apply Hsys | ].
  split.
  { assert (Hk : obj_get (match search_record_normalized r with
                          | JObj o => o | _ => [] end) "storage_id"
                 = Some (JStr (Search.storageid r))).
    { unfold search_record_normalized.
      by destruct (Search.indexfile r). }
    destruct (Hplace i r _ _ Hi Hk (λ x, x)) as (x & Hx & n & -> & Hn).
    by exists n. }
  split.
  { intros f Hf.
    assert (Hk : obj_get (match search_record_normalized r with
                          | JObj o => o | _ => [] end) "indexfile"
                 = Some (JStr f)).
    { unfold search_record_normalized. by rewrite Hf. }
    destruct (Hplace i r _ _ Hi Hk (λ x, x)) as (x & Hx & n & -> & Hn).
    by exists n. }
  assert (Hsame : ∀ k v,
            obj_get (match search_record_normalized r with
                     | JObj o => o | _ => [] end) k = Some v →
            ¬ container v → is_transition_field k = false →
            get_path [Idx i; Key k] out.2 = Some v).
  { intros k v Hk Hv Hnot.
    destruct (Hplace i r k v Hi Hk Hv) as (x & Hx & Hps).
    unfold pseudonym_of in Hps. cbn [last] in Hps. rewrite Hnot in Hps.
    rewrite Hx. f_equal. by destruct v. }
  split; [ apply Hsame; [ reflexivity | by intros [] | reflexivity ] | ].
  split; [ apply Hsame; [ reflexivity | by intros [] | reflexivity ] | ].
  split.
  { apply Hsame; [ | by intros [] | done ].
    unfold search_record_normalized. by destruct (Search.indexfile r). }
  split.
  { apply Hsame; [ | by intros [] | done ].
    unfold search_record_normalized. by destruct (Search.indexfile r). }
  split.
  { apply Hsame; [ | by intros [] | done ].
    unfold search_record_normalized. by destruct (Search.indexfile r). }
  split.
  { apply Hsame; [ | by intros [] | done ].
    unfold search_record_normalized. by destruct (Search.indexfile r). }
  intros j r' n n' Hj Hn Hn'.
  destruct (Hsys i r Hi) as (m & Hm & Hres).
  destruct (Hsys j r' Hj) as (m' & Hm' & Hres').
  rewrite Hn in Hm. injection Hm as <-.
  rewrite Hn' in Hm'. injection Hm' as <-.
  unfold getOriginalUuid in Hres, Hres'. simpl in Hres, Hres'.
  split.
  - intros <-. congruence.
  - intros Heq. rewrite <- Heq in Hres'.
    apply (inv_rev_fwd _ Hinv) in Hres, Hres'. congruence.
Qed.

Lemma search_tool_pseudonymizes_witness :
  let r1 := {| Search.systemid := "aaaa-1"; Search.bucket := "leaks";
               Search.name := "dump.txt"; Search.indexfile := None;
               Search.storageid := "ffff-1"; Search.media := 24;
               Search.type := 1; Search.added := "2024-01-02";
               Search.date := "2024-01-01" |} in
  let r2 := {| Search.systemid := "aaaa-1"; Search.bucket := "pastes";
               Search.name := "copy.txt"; Search.indexfile := Some "iiii-1";
               Search.storageid := "ffff-2"; Search.media := 1;
               Search.type := 1; Search.added := "2024-02-02";
               Search.date := "2024-02-01" |} in
  let out := search_tool_results (run_ops initial_registry []) [r1; r2] in
  [r1; r2] !! 1%nat = Some r2
  ∧ (∃ n, get_path [Idx 1%nat; Key "storage_id"] out.2 = Some (JNum n)
          ∧ getOriginalUuid out.1 "storage_id" n = Some "ffff-2")
  ∧ get_path [Idx 1%nat; Key "bucket"] out.2 = Some (JStr "pastes").
Proof.
  intros r1 r2 out.
  assert (Hi : [r1; r2] !! 1%nat = Some r2) by reflexivity.
  split; [ exact Hi | ].
  pose proof (search_tool_pseudonymizes [] [r1; r2] 1%nat r2 Hi)
    as (_ & Hstorage & _ & Hbucket & _).
  split; [ exact Hstorage | exact Hbucket ].
Defined.
